(** * ai-job-match: the matching pipeline of [job_match.py]

    A shallow embedding of the module-level script of [src/job_match.py]:
    duplicate removal, text normalisation before embedding, corpus
    indexing, the curation loop over the retrieved identifiers and the
    final sort.  External collaborators (langdetect, ollama, chromadb,
    [json.loads], [int] on a [str]) are the fields of a record [External];
    everything the script itself computes is a definition below. *)

From Stdlib Require Import ZArith NArith Ascii String DecimalString DecimalZ
  DecimalPos Lia.
From stdpp Require Import base tactics option list numbers sorting gmap.

Local Open Scope Z_scope.

(** ** Python values *)

(** A Python [str] is a sequence of Unicode code points. *)
Definition pystr := list N.

Definition of_string (s : string) : pystr :=
  map N_of_ascii (list_ascii_of_string s).

(** The exceptions that the script can meet. *)
Inductive exn :=
  | TypeError
  | KeyError
  | ValueError
  | OverflowError
  | JSONDecodeError
  | LangDetectException
  | ResponseError
  | ConnectionError.

Inductive result (A : Type) :=
  | Ok (a : A)
  | Raise (e : exn).
Arguments Ok {A} a.
Arguments Raise {A} e.

#[global] Instance result_ret : MRet result := fun A a => Ok a.
#[global] Instance result_bind : MBind result := fun A B k m =>
  match m with
  | Ok a => k a
  | Raise e => Raise e
  end.
#[global] Instance result_fmap : FMap result := fun A B f m =>
  match m with
  | Ok a => Ok (f a)
  | Raise e => Raise e
  end.

(** What [json.loads] can return.  A float is kept as the two things the
    script ever does with one: [int(f)] (truncation, failing on inf and
    nan) and [str(f)]. *)
#[warnings="-register-all"]
Inductive pyval :=
  | PNone
  | PBool (b : bool)
  | PInt (n : Z)
  | PFloat (as_int : result Z) (as_str : pystr)
  | PStr (s : pystr)
  | PList (l : list pyval)
  | PDict (d : list (pystr * pyval)).

#[global] Instance exn_eq_dec : EqDecision exn.
Proof. solve_decision. Defined.

#[global] Instance result_eq_dec {A} `{EqDecision A} : EqDecision (result A).
Proof. solve_decision. Defined.

(** Structural equality of parsed values, decided through the nested
    lists. *)
Definition pyval_eq_dec : forall a b : pyval, {a = b} + {a <> b}.
Proof.
  fix IH 1. intros a b. destruct a, b; try (right; discriminate).
  - left; reflexivity.
  - destruct (decide (b = b0)); [left; congruence | right; congruence].
  - destruct (decide (n = n0)); [left; congruence | right; congruence].
  - destruct (decide (as_int = as_int0)); [|right; congruence].
    destruct (decide (as_str = as_str0)); [left; congruence | right; congruence].
  - destruct (decide (s = s0)); [left; congruence | right; congruence].
  - destruct (List.list_eq_dec IH l l0); [left; congruence | right; congruence].
  - assert (Hp : forall p q : pystr * pyval, {p = q} + {p <> q}).
    { intros [k v] [k' v']. destruct (decide (k = k')); [|right; congruence].
      destruct (IH v v'); [left; congruence | right; congruence]. }
    destruct (List.list_eq_dec Hp d d0); [left; congruence | right; congruence].
Defined.

#[global] Instance pyval_eq_decision : EqDecision pyval := pyval_eq_dec.

(** ** Deduplicator *)

Section Dedup.
Context {A R : Type} `{EqDecision R}.

(** One pass of the loop shared by [remove_duplicates] and
    [remove_exact_duplicates]: [seen] is the set of hashable forms met so
    far and [unique_list] the records kept, in order. *)
Definition dedup_step (repr : A -> R) (st : list R * list A) (d : A)
  : list R * list A :=
  let '(seen, unique_list) := st in
  if decide (repr d ∈ seen) then (seen, unique_list)
  else (repr d :: seen, unique_list ++ [d]).

Definition dedup_loop (repr : A -> R) (lst : list A) : list R * list A :=
  fold_left (dedup_step repr) lst ([], []).

(** [remove_exact_duplicates(lst)], with [tuple_repr d] standing for
    [tuple(sorted(d.items()))]. *)
Definition remove_exact_duplicates (tuple_repr : A -> R) (lst : list A)
  : list A :=
  snd (dedup_loop tuple_repr lst).

(** [remove_duplicates(lst, key)], with [get_key d] standing for
    [d.get(key)]. *)
Definition remove_duplicates (get_key : A -> R) (lst : list A) : list A :=
  snd (dedup_loop get_key lst).

(** Position of the first record with a given hashable form. *)
Fixpoint first_index (repr : A -> R) (r : R) (lst : list A) : option nat :=
  match lst with
  | [] => None
  | d :: rest =>
      if decide (repr d = r) then Some 0%nat
      else S <$> first_index repr r rest
  end.
End Dedup.

(** ** Text helpers: [re.sub], [str.split], [str.join] *)

(** [str.isspace] on one code point (the whitespace that [str.split()]
    with no argument splits on). *)
Definition py_isspace (c : N) : bool :=
  ((9 <=? c) && (c <=? 13) || (28 <=? c) && (c <=? 32) || (c =? 133)
   || (c =? 160) || (c =? 5760) || (8192 <=? c) && (c <=? 8202)
   || (c =? 8232) || (c =? 8233) || (c =? 8239) || (c =? 8287)
   || (c =? 12288))%N.

(** [text.split()]: the maximal runs of non-whitespace, in order.  [cur] is
    the word being read. *)
Fixpoint split_from (cur : pystr) (text : pystr) : list pystr :=
  match text with
  | [] => if cur is [] then [] else [cur]
  | c :: rest =>
      if py_isspace c
      then (if cur is [] then [] else [cur]) ++ split_from [] rest
      else split_from (cur ++ [c]) rest
  end.

Definition py_split (text : pystr) : list pystr := split_from [] text.

(** [sep.join(words)]. *)
Fixpoint py_join (sep : pystr) (words : list pystr) : pystr :=
  match words with
  | [] => []
  | [w] => w
  | w :: ws => w ++ sep ++ py_join sep ws
  end.

(** [re.sub(r'[^\x00-\x7F]+', '', text)]: every maximal run of code points
    above 0x7F is replaced by the empty string. *)
Definition strip_non_ascii (text : pystr) : pystr :=
  filter (fun c => (c <= 127)%N) text.

(** The first line of [create_embedding]. *)
Definition preprocess (text : pystr) : pystr :=
  py_join (of_string " ") (py_split (strip_non_ascii text)).

(** The same, following the words of the specification: delete, collapse
    every run of whitespace to one space, trim both ends. *)
Fixpoint collapse_whitespace (text : pystr) : pystr :=
  match text with
  | [] => []
  | c :: rest =>
      if py_isspace c
      then match rest with
           | c' :: _ => if py_isspace c' then collapse_whitespace rest
                        else 32%N :: collapse_whitespace rest
           | [] => [32%N]
           end
      else c :: collapse_whitespace rest
  end.

Fixpoint trim_left (text : pystr) : pystr :=
  match text with
  | [] => []
  | c :: rest => if py_isspace c then trim_left rest else text
  end.

Fixpoint trim_right (text : pystr) : pystr :=
  match text with
  | [] => []
  | c :: rest =>
      match trim_right rest with
      | [] => if py_isspace c then [] else [c]
      | kept => c :: kept
      end
  end.

Definition trim (text : pystr) : pystr := trim_right (trim_left text).

(** Deletion of the characters outside 0x00 to 0x7F, one character at a
    time: a character is kept as it is or dropped, never replaced. *)
Fixpoint delete_non_ascii (text : pystr) : pystr :=
  match text with
  | [] => []
  | c :: rest =>
      if (c <=? 127)%N then c :: delete_non_ascii rest
      else delete_non_ascii rest
  end.

Definition spec_normalize (text : pystr) : pystr :=
  trim (collapse_whitespace (delete_non_ascii text)).

(** Lexicographic [<] on [str], by code point. *)
Fixpoint str_lt (a b : pystr) : bool :=
  match a, b with
  | _, [] => false
  | [], _ :: _ => true
  | x :: a', y :: b' => ((x <? y) || (x =? y) && str_lt a' b')%N
  end.

(** [str(n)] for an [int]. *)
Definition str_of_int (n : Z) : pystr :=
  of_string (DecimalString.NilZero.string_of_int (Z.to_int n)).

(** ** Job records *)

(** The values found under the key [suitability]: the [str] stored by the
    curation loop, or an [int] such as the default of the final sort. *)
Inductive key :=
  | KInt (n : Z)
  | KStr (s : pystr).

(** [a < b] *)
Definition py_lt (a b : key) : result bool :=
  match a, b with
  | KInt m, KInt n => Ok (m <? n)
  | KStr s, KStr t => Ok (str_lt s t)
  | _, _ => Raise TypeError
  end.


#[global] Instance key_eq_dec : EqDecision key.
Proof. solve_decision. Defined.

(** Two keys that [<] can compare. *)
Definition same_kind (a b : key) : Prop :=
  match a, b with
  | KInt _, KInt _ | KStr _, KStr _ => True
  | _, _ => False
  end.

(** [not (b < a)], for keys that compare. *)
Definition key_le (a b : key) : Prop := py_lt b a = Ok false.

(** The dict built by [process_jobs_csv], with the three keys the curation
    loop adds later; [None] is an absent key. *)
Record job := Job {
  id_ : pystr;
  title : pystr;
  url : pystr;
  location : pystr;
  date : pystr;
  applicants : pystr;
  description : pystr;
  company : pystr;
  summary : option pyval;
  match_ : option pyval;
  suitability : option key;
}.

Definition set_summary (v : pyval) (d : job) : job :=
  Job (id_ d) (title d) (url d) (location d) (date d) (applicants d)
      (description d) (company d) (Some v) (match_ d) (suitability d).
Definition set_match (v : pyval) (d : job) : job :=
  Job (id_ d) (title d) (url d) (location d) (date d) (applicants d)
      (description d) (company d) (summary d) (Some v) (suitability d).
Definition set_suitability (s : key) (d : job) : job :=
  Job (id_ d) (title d) (url d) (location d) (date d) (applicants d)
      (description d) (company d) (summary d) (match_ d) (Some s).

(** [sorted(d.items())]: the present keys in alphabetical order.  Two such
    lists are compared structurally, which is Python's equality and hash
    of the tuples when every value is a [str]: so it is where the script
    calls [remove_exact_duplicates], on records that hold the eight [str]
    fields only.  On other values Python differs: it identifies [1],
    [True] and [1.0], and cannot hash a list or a dict. *)
Definition sorted_items (d : job) : list (pystr * pyval) :=
  [(of_string "applicants", PStr (applicants d));
   (of_string "company", PStr (company d));
   (of_string "date", PStr (date d));
   (of_string "description", PStr (description d));
   (of_string "id", PStr (id_ d));
   (of_string "location", PStr (location d))]
  ++ (if match_ d is Some v then [(of_string "match", v)] else [])
  ++ (if suitability d is Some s
      then [(of_string "suitability",
             match s with KStr t => PStr t | KInt n => PInt n end)]
      else [])
  ++ (if summary d is Some v then [(of_string "summary", v)] else [])
  ++ [(of_string "title", PStr (title d)); (of_string "url", PStr (url d))].

(** ** External collaborators *)

(** The services and builtins the script calls.  A service reads and
    changes a [world] (the network, the model, the Chroma collection) and
    may raise. *)
Record External := {
  world : Type;
  vector : Type;
  (** [langdetect.detect(text)] *)
  detect : pystr -> world -> result pystr * world;
  (** [ollama.embeddings(model=EMBEDDINGS_MODEL, prompt=text)["embedding"]] *)
  ollama_embeddings : pystr -> world -> result vector * world;
  (** [ollama.generate(model=MODEL, prompt=prompt, stream=False)["response"]] *)
  ollama_generate : pystr -> world -> result pystr * world;
  (** [COLLECTION.add(ids=[i], embeddings=[e], documents=[d])] *)
  collection_add : pystr -> vector -> pystr -> world -> result unit * world;
  (** [COLLECTION.query(query_embeddings=e, n_results=n)["ids"][0]] *)
  collection_query : vector -> nat -> world -> result (list pystr) * world;
  (** [json.loads(text)] *)
  json_loads : pystr -> result pyval;
  (** [int(s)] for a [str] *)
  int_of_str : pystr -> result Z;
  (** [str(v)] for a list or a dict *)
  str_of_container : pyval -> pystr;
}.

Definition EMBEDDINGS_MODEL : pystr := of_string "nomic-embed-text".
Definition MODEL : pystr := of_string "llama3.2".
Definition N_RESULTS : nat := 25.
Definition LANG : pystr := of_string "en".

Definition nl : pystr := [10%N].
Definition dq : pystr := [34%N].

Definition CURATION_PROMPT : pystr :=
  nl ++
  of_string "    You are a job hiring assistant." ++ nl ++
  of_string "    You will receive a candidate profile and a job description" ++ nl ++
  of_string "    Your task is to answer the following questions:" ++ nl ++
  of_string "    On a scale of 0 to 5, how suitable is the candidate for the job, with 5 being most suitable." ++ nl ++
  of_string "    What are the main tasks of the job?" ++ nl ++
  of_string "    What area is this job in?" ++ nl ++
  of_string "    How well do the candidate's skills and interests match the description?" ++ nl ++
  of_string "    Are there skills that the candidate lacks?" ++ nl ++
  of_string "    Is the candidate suitably qualified?" ++ nl ++
  of_string "    Is the candidate a good fit for this role?" ++ nl ++
  of_string "    " ++ dq ++ of_string "Answer concisely using an objective tone." ++ nl ++
  of_string "    " ++ dq ++ of_string "Output your answer as json with the following format:" ++ nl ++
  of_string "    { " ++ nl ++
  of_string "        " ++ dq ++ of_string "Suitability" ++ dq ++ of_string ": <int[0-5]," ++ nl ++
  of_string "        " ++ dq ++ of_string "Job_summary" ++ dq ++ of_string ": " ++ dq ++ of_string "<string>" ++ dq ++ of_string "," ++ nl ++
  of_string "        " ++ dq ++ of_string "Match_summary" ++ dq ++ of_string ": " ++ dq ++ of_string "<string>" ++ dq ++ nl ++
  of_string "    }" ++ nl ++
  of_string "    The Job_summary and Match_summary fields should be no longer than one paragraph each." ++ nl ++
  of_string "    Output only valid json with double quotation marks around fields and values." ++ nl ++
  of_string "    Be sure that the field names exactly match the description: Suitability, Job_summary, Match_summary." ++ nl ++
  of_string "    Output only valid json. Do not add anything outside the json." ++ nl ++
  of_string "    Do not add a note or explanation." ++ nl ++
  of_string "    ".

(** ** Statements that read and change a state and may raise *)

Definition sprog (S A : Type) : Type := S -> result A * S.

Definition sret {S A} (a : A) : sprog S A := fun s => (Ok a, s).
Definition sraise {S A} (e : exn) : sprog S A := fun s => (Raise e, s).
Definition slift {S A} (r : result A) : sprog S A := fun s => (r, s).
Definition smodify {S} (f : S -> S) : sprog S unit := fun s => (Ok tt, f s).
Definition sbind {S A B} (m : sprog S A) (k : A -> sprog S B) : sprog S B :=
  fun s =>
    match m s with
    | (Ok a, s') => k a s'
    | (Raise e, s') => (Raise e, s')
    end.

Notation "'let*' x ':=' m 'in' k" := (sbind m (fun x => k))
  (at level 10, x pattern, m at level 100, k at level 200,
   format "'[v' 'let*'  x  ':='  m  'in' '/' k ']'").

(** [for x in xs: body(x)] *)
Fixpoint for_each {S A} (xs : list A) (body : A -> sprog S unit)
  : sprog S unit :=
  match xs with
  | [] => sret tt
  | x :: rest => let* _ := body x in for_each rest body
  end.

(** [try: body except Exception as e: print(e)] *)
Definition try_except {S} (body : sprog S unit) : sprog S unit :=
  fun s => (Ok tt, snd (body s)).

(** ** Builtins on parsed values *)

(** [v[key]] for a [str] key. *)
Fixpoint dict_get (d : list (pystr * pyval)) (key : pystr) : option pyval :=
  match d with
  | [] => None
  | (k, v) :: rest => if decide (k = key) then Some v else dict_get rest key
  end.

Definition getitem (v : pyval) (key : pystr) : result pyval :=
  match v with
  | PDict d => if dict_get d key is Some x then Ok x else Raise KeyError
  | _ => Raise TypeError
  end.

(** ** Best-effort JSON extraction *)

Definition lbrace : N := 123.
Definition rbrace : N := 125.

(** The match of [^[^{]*] at position 0 is the longest prefix without an
    opening brace; [re.sub] deletes it. *)
Fixpoint strip_prefix (text : pystr) : pystr :=
  match text with
  | [] => []
  | c :: rest => if decide (c = lbrace) then text else strip_prefix rest
  end.

(** After that, [re.sub] copies characters until the first position from
    which no closing brace follows: there [[^}]*$] matches up to the end
    and is deleted. *)
Fixpoint strip_suffix (text : pystr) : pystr :=
  match text with
  | [] => []
  | c :: rest =>
      if forallb (fun x => negb (x =? rbrace)%N) text then []
      else c :: strip_suffix rest
  end.

(** [re.sub(r"^[^{]*|[^}]*$", "", text)], with the handling of empty matches
    of Python 3.7 and later: an empty match of the first alternative at
    position 0 does not keep the second from matching there. *)
Definition extract_json (text : pystr) : pystr :=
  strip_suffix (strip_prefix text).

(** ** The final sort *)

(** [d.get("suitability", 2)] *)
Definition sort_key (d : job) : key := default (KInt 2) (suitability d).

Section Sorted.
Context {A : Type} (keyf : A -> key).

(** A stable ascending sort by [<] on the keys, raising what a comparison
    raises. *)
Fixpoint insert_sorted (x : A) (l : list A) : result (list A) :=
  match l with
  | [] => Ok [x]
  | y :: rest =>
      b ← py_lt (keyf y) (keyf x);
      if b : bool then cons y <$> insert_sorted x rest
      else Ok (x :: y :: rest)
  end.

Fixpoint sort_asc (l : list A) : result (list A) :=
  match l with
  | [] => Ok []
  | x :: rest => sorted_rest ← sort_asc rest; insert_sorted x sorted_rest
  end.

(** Order of two elements by their keys, smaller first and larger
    first. *)
Definition ascending (x y : A) : Prop := key_le (keyf x) (keyf y).
Definition descending (x y : A) : Prop := key_le (keyf y) (keyf x).

(** The elements with a given key, in the order they have in [l]. *)
Definition with_key (k : key) (l : list A) : list A :=
  filter (fun d => keyf d = k) l.

(** [sorted(l, key=keyf, reverse=True)]: reverse, sort, reverse, which
    keeps equal keys in their input order. *)
Definition sorted_reverse (l : list A) : result (list A) :=
  reverse <$> sort_asc (reverse l).
End Sorted.

(** Line 237. *)
Definition rank (final_jobs : list job) : result (list job) :=
  sorted_reverse sort_key final_jobs.

(** ** The pipeline *)

Section Pipeline.
Context (E : External).

Definition prog (A : Type) : Type := sprog (world E) A.

(** [int(v)] *)
Definition py_int (v : pyval) : result Z :=
  match v with
  | PInt n => Ok n
  | PBool b => Ok (if b then 1 else 0)
  | PFloat as_int _ => as_int
  | PStr s => int_of_str E s
  | PNone | PList _ | PDict _ => Raise TypeError
  end.

(** [str(v)] *)
Definition py_str (v : pyval) : pystr :=
  match v with
  | PStr s => s
  | PInt n => str_of_int n
  | PBool b => of_string (if b then "True" else "False")
  | PFloat _ as_str => as_str
  | PNone => of_string "None"
  | PList _ | PDict _ => str_of_container E v
  end.

Definition create_embedding (text : pystr) : prog (vector E) :=
  let text := preprocess text in
  ollama_embeddings E text.

Definition store_embeddings (i : pystr) (embedding : vector E)
    (document : pystr) : prog bool :=
  fun w =>
    match collection_add E i embedding document w with
    | (Ok _, w') => (Ok true, w')
    | (Raise _, w') => (Ok false, w')
    end.

Definition query_embedding (embedding : vector E) (n_results : nat)
  : prog (list pystr) :=
  collection_query E embedding n_results.

(** The body of the loop of [embed_jobs]. *)
Definition embed_job (d : job) : prog unit :=
  let* lang := detect E (description d) in
  if decide (lang = LANG) then
    let job_text := title d ++ description d ++ company d in
    let* embedding := create_embedding job_text in
    let* _ := store_embeddings (id_ d) embedding (description d) in
    sret tt
  else sret tt.

Definition embed_jobs (jobs : list job) : prog unit :=
  for_each jobs embed_job.

(** [next((d for d in jobs_list if d.get("id") == Id), None)]: the record
    and its position in [jobs_list]; the loop works on that very dict,
    not on a copy. *)
Fixpoint find_job (jobs_list : list job) (Id : pystr)
  : option (nat * job) :=
  match jobs_list with
  | [] => None
  | d :: rest =>
      if decide (id_ d = Id) then Some (0%nat, d)
      else prod_map S id <$> find_job rest Id
  end.

(** The state of the curation loop: the records of [jobs_list], and
    [final_jobs] as the positions of the records appended to it. *)
Record curation := Curation {
  jobs_list : list job;
  final_jobs : list nat;
}.

Definition update_job (i : nat) (f : job -> job) (st : curation)
  : curation :=
  Curation (alter f i (jobs_list st)) (final_jobs st).

Definition append_final (i : nat) (st : curation) : curation :=
  Curation (jobs_list st) (final_jobs st ++ [i]).

(** Lines 226 to 232, for the record at position [i]. *)
Definition curate_response (i : nat) (raw : pystr) : sprog curation unit :=
  let* response := slift (json_loads E (extract_json raw)) in
  let* score := slift (getitem response (of_string "Suitability")) in
  let* n := slift (py_int score) in
  if 0 <? n then
    let* job_summary := slift (getitem response (of_string "Job_summary")) in
    let* _ := smodify (update_job i (set_summary job_summary)) in
    let* match_summary :=
      slift (getitem response (of_string "Match_summary")) in
    let* _ := smodify (update_job i (set_match match_summary)) in
    let* score := slift (getitem response (of_string "Suitability")) in
    let* _ :=
      smodify (update_job i (set_suitability (KStr (py_str score)))) in
    smodify (append_final i)
  else sret tt.

(** Lines 228 to 232 alone: what the loop does with a parsed response. *)
Definition merge_response (i : nat) (response : pyval)
  : sprog curation unit :=
  let* score := slift (getitem response (of_string "Suitability")) in
  let* n := slift (py_int score) in
  if 0 <? n then
    let* job_summary := slift (getitem response (of_string "Job_summary")) in
    let* _ := smodify (update_job i (set_summary job_summary)) in
    let* match_summary :=
      slift (getitem response (of_string "Match_summary")) in
    let* _ := smodify (update_job i (set_match match_summary)) in
    let* score := slift (getitem response (of_string "Suitability")) in
    let* _ :=
      smodify (update_job i (set_suitability (KStr (py_str score)))) in
    smodify (append_final i)
  else sret tt.

(** Line 221. *)
Definition build_prompt (profile : pystr) (current_job : job) : pystr :=
  CURATION_PROMPT ++ of_string " The profile is:" ++ profile
  ++ of_string ". The job description is: " ++ description current_job.

(** The body of the loop over the retrieved identifiers. *)
Definition curate (profile : pystr) (Id : pystr) (st : curation)
  : prog curation :=
  match find_job (jobs_list st) Id with
  | None => sraise TypeError
  | Some (i, current_job) =>
      let prompt := build_prompt profile current_job in
      let* raw := ollama_generate E prompt in
      sret (snd (try_except (curate_response i raw) st))
  end.

Fixpoint curation_loop (profile : pystr) (ids : list pystr)
    (st : curation) : prog curation :=
  match ids with
  | [] => sret st
  | Id :: rest =>
      let* st' := curate profile Id st in
      curation_loop profile rest st'
  end.

(** The records [final_jobs] refers to. *)
Definition deref (st : curation) : list job :=
  omap (fun i => jobs_list st !! i) (final_jobs st).

(** A response passes validation: it parses, holds the three fields, and
    its [Suitability] coerces to an integer above 0. *)
Definition accepted (raw : pystr) : Prop :=
  ∃ response score n job_summary match_summary,
    json_loads E (extract_json raw) = Ok response
    ∧ getitem response (of_string "Suitability") = Ok score
    ∧ py_int score = Ok n ∧ 0 < n
    ∧ getitem response (of_string "Job_summary") = Ok job_summary
    ∧ getitem response (of_string "Match_summary") = Ok match_summary.

(** The state in which an accepted response leaves the loop. *)
Definition curated (i : nat) (score job_summary match_summary : pyval)
    (st : curation) : curation :=
  append_final i
    (update_job i (set_suitability (KStr (py_str score)))
       (update_job i (set_match match_summary)
          (update_job i (set_summary job_summary) st))).

(** The three enrichment keys are present, and [suitability] is [str(v)]
    of a value [v] with [int(v) > 0]. *)
Definition enriched (d : job) : Prop :=
  is_Some (summary d) ∧ is_Some (match_ d)
  ∧ ∃ v n, suitability d = Some (KStr (py_str v))
           ∧ py_int v = Ok n ∧ 0 < n.

(** Every position in [final_jobs] holds a fully enriched record. *)
Definition all_enriched (st : curation) : Prop :=
  ∀ i, i ∈ final_jobs st →
       ∃ d, jobs_list st !! i = Some d ∧ enriched d.

(** The replies the loop has obtained from the language model, each with
    the position of the record it was asked about, in the order of the
    calls. *)
Fixpoint curation_trace (profile : pystr) (ids : list pystr)
    (st : curation) (w : world E) : list (nat * pystr) :=
  match ids with
  | [] => []
  | Id :: rest =>
      match find_job (jobs_list st) Id with
      | None => []
      | Some (i, current_job) =>
          match ollama_generate E (build_prompt profile current_job) w with
          | (Ok raw, w') =>
              (i, raw)
              :: curation_trace profile rest
                   (snd (try_except (curate_response i raw) st)) w'
          | (Raise _, _) => []
          end
      end
  end.

(** The suitability of [d] is [str(v)] for the [Suitability] value [v] of
    a reply of [trace] about position [i], with [int(v)] above 0. *)
Definition scored_by (trace : list (nat * pystr)) (i : nat) (d : job)
  : Prop :=
  ∃ raw response v n,
    (i, raw) ∈ trace
    ∧ json_loads E (extract_json raw) = Ok response
    ∧ getitem response (of_string "Suitability") = Ok v
    ∧ py_int v = Ok n ∧ 0 < n
    ∧ suitability d = Some (KStr (py_str v))
    ∧ (∀ m, v = PInt m → suitability d = Some (KStr (str_of_int n))).

(** Every position in [final_jobs] holds a record with the three keys,
    scored by a reply of [trace]. *)
Definition all_scored (trace : list (nat * pystr)) (st : curation) : Prop :=
  ∀ i, i ∈ final_jobs st →
       ∃ d, jobs_list st !! i = Some d
            ∧ is_Some (summary d) ∧ is_Some (match_ d)
            ∧ scored_by trace i d.

(** The script from line 192 on, given what [process_jobs_csv] and
    [get_profile] read; the result is the list handed to the report. *)
Definition main (jobs : list job) (profile : pystr) : prog (list job) :=
  let jobs_list := remove_exact_duplicates sorted_items jobs in
  let* _ := embed_jobs jobs_list in
  let* profile_embedding := create_embedding profile in
  let* relevant_jobs := query_embedding profile_embedding N_RESULTS in
  let* st := curation_loop profile relevant_jobs (Curation jobs_list []) in
  slift (rank (deref st)).
End Pipeline.

(** ** A scripted stand-in for the external collaborators

    Used to run the pipeline on concrete inputs: the services log their
    calls, the language model answers from a script, and [json.loads]
    knows the documents of the script. *)

Module Demo.

Inductive event :=
  | EvDetect (text : pystr)
  | EvEmbed (text : pystr)
  | EvAdd (i : pystr) (document : pystr)
  | EvQuery (n : nat)
  | EvGenerate (prompt : pystr).

Record state := State {
  trace : list event;
  script : list pystr;
}.

Definition log (e : event) (w : state) : state :=
  State (trace w ++ [e]) (script w).

(** No text, no language; a text starting with [L] is French. *)
Definition detect_language (text : pystr) (w : state) : result pystr * state :=
  match text with
  | [] => (Raise LangDetectException, log (EvDetect text) w)
  | c :: _ =>
      (Ok (of_string (if (c =? 76)%N then "fr" else "en")),
       log (EvDetect text) w)
  end.

(** The service is down for texts that start with [!]. *)
Definition embeddings (text : pystr) (w : state) : result nat * state :=
  match text with
  | 33%N :: _ => (Raise ResponseError, log (EvEmbed text) w)
  | _ => (Ok (length text), log (EvEmbed text) w)
  end.

Definition generate (prompt : pystr) (w : state) : result pystr * state :=
  match script w with
  | [] => (Raise ConnectionError, log (EvGenerate prompt) w)
  | reply :: rest =>
      (Ok reply, State (trace w ++ [EvGenerate prompt]) rest)
  end.

Definition add (i : pystr) (embedding : nat) (document : pystr)
    (w : state) : result unit * state :=
  (Ok tt, log (EvAdd i document) w).

(** The identifiers added so far, oldest first. *)
Definition added (w : state) : list pystr :=
  omap (fun e => if e is EvAdd i _ then Some i else None) (trace w).

Definition query (embedding : nat) (n : nat) (w : state)
  : result (list pystr) * state :=
  (Ok (take n (added w)), log (EvQuery n) w).

Definition quoted (s : string) : pystr := dq ++ of_string s ++ dq.

(** The answer the prompt asks for, with a given score. *)
Definition answer_fields (score : string) : pystr :=
  quoted "Suitability" ++ of_string ":" ++ of_string score
  ++ of_string "," ++ quoted "Job_summary" ++ of_string ":" ++ quoted "a"
  ++ of_string "," ++ quoted "Match_summary" ++ of_string ":" ++ quoted "b".

Definition answer (score : string) : pystr :=
  lbrace :: answer_fields score ++ [rbrace].

Definition parsed (score : pyval) : pyval :=
  PDict [(of_string "Suitability", score);
         (of_string "Job_summary", PStr (of_string "a"));
         (of_string "Match_summary", PStr (of_string "b"))].

(** An answer without [Match_summary]. *)
Definition short_answer : pystr :=
  of_string "{" ++ quoted "Suitability" ++ of_string ":3,"
  ++ quoted "Job_summary" ++ of_string ":" ++ quoted "a" ++ of_string "}".

Definition short_parsed : pyval :=
  PDict [(of_string "Suitability", PInt 3);
         (of_string "Job_summary", PStr (of_string "a"))].

Definition documents : list (pystr * pyval) :=
  [(answer "0", parsed (PInt 0));
   (answer "3", parsed (PInt 3));
   (answer "4", parsed (PInt 4));
   (answer "9", parsed (PInt 9));
   (answer "10", parsed (PInt 10));
   (answer "3.5", parsed (PFloat (Ok 3) (of_string "3.5")));
   (answer "true", parsed (PBool true));
   (short_answer, short_parsed)].

Definition loads (text : pystr) : result pyval :=
  if dict_get documents text is Some v then Ok v else Raise JSONDecodeError.

(** [int] on ASCII digits only. *)
Definition digits_value (s : pystr) : result Z :=
  foldl (fun acc c =>
           n ← acc;
           if ((48 <=? c) && (c <=? 57))%N
           then Ok (10 * n + Z.of_N (c - 48))
           else Raise ValueError)
        (Ok 0) s.

Definition int_of_digits (s : pystr) : result Z :=
  if s is [] then Raise ValueError else digits_value s.

Definition ext : External := {|
  world := state;
  vector := nat;
  detect := detect_language;
  ollama_embeddings := embeddings;
  ollama_generate := generate;
  collection_add := add;
  collection_query := query;
  json_loads := loads;
  int_of_str := int_of_digits;
  str_of_container := fun _ => [];
|}.

Definition plain_job (i : string) (text : string) : job :=
  Job (of_string i) (of_string "Engineer") (of_string "http://x")
      (of_string "Leeds") (of_string "2025-03-01") (of_string "7")
      (of_string text) (of_string "Acme") None None None.

Definition start (replies : list pystr) : state := State [] replies.

Definition profile : pystr := of_string "I build things".
Definition job1 : job := plain_job "1" "Build things".
Definition job2 : job := plain_job "2" "Test things".

(** A record with nothing to detect a language from, and one whose text
    the embedding service rejects. *)
Definition job_blank : job := plain_job "3" "".
Definition job_down : job :=
  Job (of_string "4") (of_string "!Engineer") (of_string "http://x")
      (of_string "Leeds") (of_string "2025-03-01") (of_string "7")
      (of_string "Build things") (of_string "Acme") None None None.

End Demo.

(** ** Further definitions *)

(** Two records with the same eight fields read from the CSV file. *)
Definition same_base (d d' : job) : Prop :=
  id_ d = id_ d' ∧ title d = title d' ∧ url d = url d'
  ∧ location d = location d' ∧ date d = date d'
  ∧ applicants d = applicants d' ∧ description d = description d'
  ∧ company d = company d'.

(** [d.get(key)] *)
Definition job_get (d : job) (key : pystr) : option pyval :=
  dict_get (sorted_items d) key.

(** A record as [process_jobs_csv] builds it: no enrichment yet. *)
Definition fresh (d : job) : Prop :=
  summary d = None ∧ match_ d = None ∧ suitability d = None.

(** [row.get(column, '')] for a row of [csv.DictReader] in which no cell is
    [None], that is, read from a line with a cell for each column of the
    header: the cell, or the empty string when the header has no such
    column.  For a shorter line the reader stores [None] under the missing
    columns and [row.get] returns that [None]; the dict then built is not
    a [job] of this model, and such rows are not among those of type
    [gmap pystr pystr]. *)
Definition row_get (row : gmap pystr pystr) (column : string) : pystr :=
  default [] (row !! of_string column).

(** The dict built for the row numbered [job_id]. *)
Definition make_job (job_id : Z) (row : gmap pystr pystr) : job :=
  Job (str_of_int job_id) (row_get row "title") (row_get row "url")
      (row_get row "location") (row_get row "date")
      (row_get row "applicants") (row_get row "description")
      (row_get row "company") None None None.

(** [for job_id, row in enumerate(reader, start)] *)
Fixpoint jobs_from (start : Z) (rows : list (gmap pystr pystr)) : list job :=
  match rows with
  | [] => []
  | row :: rest => make_job start row :: jobs_from (start + 1) rest
  end.

(** [process_jobs_csv], given the rows read from the file, none of them
    from a line shorter than the header. *)
Definition process_jobs_csv (rows : list (gmap pystr pystr)) : list job :=
  jobs_from 1 rows.

(** A collection that refuses an identifier it already holds. *)
Module Strict.

Definition add (i : pystr) (embedding : nat) (document : pystr)
    (w : Demo.state) : result unit * Demo.state :=
  if decide (i ∈ Demo.added w) then (Raise ValueError, w)
  else (Ok tt, Demo.log (Demo.EvAdd i document) w).

Definition ext : External := {|
  world := Demo.state;
  vector := nat;
  detect := Demo.detect_language;
  ollama_embeddings := Demo.embeddings;
  ollama_generate := Demo.generate;
  collection_add := add;
  collection_query := Demo.query;
  json_loads := Demo.loads;
  int_of_str := Demo.int_of_digits;
  str_of_container := fun _ => [];
|}.

(** A second posting under the identifier of [Demo.job1]. *)
Definition job1_again : job := Demo.plain_job "1" "Build more things".

End Strict.

(** ** The report ([reporter.py]) *)

(** The opening of the page, up to the list. *)
Definition html_head : pystr :=
  of_string "<!DOCTYPE html>" ++ nl ++
  of_string "        <html lang=" ++ dq ++ of_string "en" ++ dq ++ of_string ">" ++ nl ++
  of_string "        <head>" ++ nl ++
  of_string "            <meta charset=" ++ dq ++ of_string "UTF-8" ++ dq ++ of_string ">" ++ nl ++
  of_string "            <meta name=" ++ dq ++ of_string "viewport" ++ dq ++ of_string " content=" ++ dq ++ of_string "width=device-width, initial-scale=1.0" ++ dq ++ of_string ">" ++ nl ++
  of_string "            <title>Job Listings</title>" ++ nl ++
  of_string "            <style>" ++ nl ++
  of_string "                body { font-family: sans-serif; background-color: #f8f8f8; margin: 20px; }" ++ nl ++
  of_string "                ul { list-style-type: none; padding: 0; }" ++ nl ++
  of_string "                .job { background: white; padding: 15px; margin-bottom: 10px; border-radius: 5px; box-shadow: 0 2px 4px rgba(0, 0, 0, 0.1); }" ++ nl ++
  of_string "                h2 a { text-decoration: none; color: #0073e6; }" ++ nl ++
  of_string "                h2 a:hover { text-decoration: underline; }" ++ nl ++
  of_string "                .info-container { font-size: 14px; color: #555; font-weight: bold; display: flex; gap: 15px; }" ++ nl ++
  of_string "                .toggle { cursor: pointer; color: #0073e6; display: block; margin-top: 5px; }" ++ nl ++
  of_string "                .hidden { display: none; }" ++ nl ++
  of_string "            </style>" ++ nl ++
  of_string "        </head>" ++ nl ++
  of_string "        <body>" ++ nl ++
  of_string "            <h1>Job Listings</h1>" ++ nl ++
  of_string "            <ul>" ++ nl ++
  of_string "        ".

(** What [join] puts between two items. *)
Definition item_separator : pystr :=
  nl ++
  of_string "        ".

(** The closing of the page, from the end of the list. *)
Definition html_tail : pystr :=
  nl ++
  of_string "            </ul>" ++ nl ++
  of_string "            <script>" ++ nl ++
  of_string "                function toggleSection(element) {" ++ nl ++
  of_string "                    let section = element.nextElementSibling;" ++ nl ++
  of_string "                    if (section.classList.contains('hidden')) {" ++ nl ++
  of_string "                        section.classList.remove('hidden');" ++ nl ++
  of_string "                        element.textContent = element.textContent.replace(" ++ dq ++ of_string "Show" ++ dq ++ of_string ", " ++ dq ++ of_string "Hide" ++ dq ++ of_string ");" ++ nl ++
  of_string "                    } else {" ++ nl ++
  of_string "                        section.classList.add('hidden');" ++ nl ++
  of_string "                        element.textContent = element.textContent.replace(" ++ dq ++ of_string "Hide" ++ dq ++ of_string ", " ++ dq ++ of_string "Show" ++ dq ++ of_string ");" ++ nl ++
  of_string "                    }" ++ nl ++
  of_string "                }" ++ nl ++
  of_string "            </script>" ++ nl ++
  of_string "        </body>" ++ nl ++
  of_string "        </html>" ++ nl ++
  of_string "    ".

Definition item_text_0 : pystr :=
  of_string "<li class=" ++ dq ++ of_string "job" ++ dq ++ of_string ">" ++ nl ++
  of_string "            <h2 class=" ++ dq ++ of_string "title" ++ dq ++ of_string "><a href=" ++ dq.

Definition item_text_1 : pystr :=
  dq ++ of_string ">".

Definition item_text_2 : pystr :=
  of_string "</a></h2>" ++ nl ++
  of_string "            <div class=" ++ dq ++ of_string "info-container" ++ dq ++ of_string ">" ++ nl ++
  of_string "                <span class=" ++ dq ++ of_string "info location" ++ dq ++ of_string ">Location: ".

Definition item_text_3 : pystr :=
  of_string "</span>" ++ nl ++
  of_string "                <span class=" ++ dq ++ of_string "info posting-date" ++ dq ++ of_string ">Posted: ".

Definition item_text_4 : pystr :=
  of_string "</span>" ++ nl ++
  of_string "                <span class=" ++ dq ++ of_string "info applicants" ++ dq ++ of_string ">Applicants: ".

Definition item_text_5 : pystr :=
  of_string "</span>" ++ nl ++
  of_string "            </div>" ++ nl ++
  of_string "            <p class=" ++ dq ++ of_string "summary" ++ dq ++ of_string ">Suitability score: ".

Definition item_text_6 : pystr :=
  of_string "</p>" ++ nl ++
  of_string "            <p class=" ++ dq ++ of_string "summary" ++ dq ++ of_string ">Job summary: ".

Definition item_text_7 : pystr :=
  of_string "</p>" ++ nl ++
  of_string "            <p class=" ++ dq ++ of_string "summary" ++ dq ++ of_string ">Match summary: ".

Definition item_text_8 : pystr :=
  of_string "</p>" ++ nl ++
  of_string "            " ++ nl ++
  of_string "            <span class=" ++ dq ++ of_string "toggle" ++ dq ++ of_string " onclick=" ++ dq ++ of_string "toggleSection(this)" ++ dq ++ of_string ">Show Description</span>" ++ nl ++
  of_string "            <p class=" ++ dq ++ of_string "hidden description" ++ dq ++ of_string ">".

Definition item_text_9 : pystr :=
  of_string "</p>" ++ nl ++
  of_string "            " ++ nl ++
  of_string "            <span class=" ++ dq ++ of_string "toggle" ++ dq ++ of_string " onclick=" ++ dq ++ of_string "toggleSection(this)" ++ dq ++ of_string ">Show Company</span>" ++ nl ++
  of_string "            <p class=" ++ dq ++ of_string "hidden company" ++ dq ++ of_string ">".

Definition item_text_10 : pystr :=
  of_string "</p>" ++ nl ++
  of_string "        </li>".

(** [f"{v}"] for a value found under [suitability]. *)
Definition format_key (k : key) : pystr :=
  match k with
  | KStr s => s
  | KInt n => str_of_int n
  end.

Section Report.
Context (E : External).

(** The f-string of one list item; a missing key raises [KeyError]. *)
Definition render_item (d : job) : result pystr :=
  match suitability d, summary d, match_ d with
  | Some score, Some job_summary, Some match_summary =>
      Ok (item_text_0 ++ url d ++ item_text_1 ++ title d
          ++ item_text_2 ++ location d ++ item_text_3 ++ date d
          ++ item_text_4 ++ applicants d
          ++ item_text_5 ++ format_key score
          ++ item_text_6 ++ py_str E job_summary
          ++ item_text_7 ++ py_str E match_summary
          ++ item_text_8 ++ description d
          ++ item_text_9 ++ company d ++ item_text_10)
  | _, _, _ => Raise KeyError
  end.

(** The generator expression, consumed by [join] in list order. *)
Fixpoint render_items (jobs : list job) : result (list pystr) :=
  match jobs with
  | [] => Ok []
  | d :: rest =>
      item ← render_item d;
      items ← render_items rest;
      Ok (item :: items)
  end.

(** [generate_job_listings(jobs)] *)
Definition generate_job_listings (jobs : list job) : result pystr :=
  items ← render_items jobs;
  Ok (html_head ++ py_join item_separator items ++ html_tail).
End Report.

(** * Properties *)

(** ** Deduplicator *)

Section DedupFacts.
Context {A R : Type} `{EqDecision R} (repr : A -> R).

Lemma dedup_loop_snoc (p : list A) (d : A) :
  dedup_loop repr (p ++ [d]) = dedup_step repr (dedup_loop repr p) d.
Proof. unfold dedup_loop. by rewrite fold_left_app. Qed.

(** [seen] holds the hashable forms of the records read so far. *)
Lemma dedup_loop_seen (p : list A) (r : R) :
  r ∈ (dedup_loop repr p).1 ↔ r ∈ map repr p.
Proof.
  induction p as [|d p IH] using rev_ind.
  - done.
  - rewrite dedup_loop_snoc, map_app. simpl.
    destruct (dedup_loop repr p) as [seen uniq]; simpl in *.
    rewrite elem_of_app, list_elem_of_singleton.
    case_decide; simpl; [|rewrite elem_of_cons]; naive_solver.
Qed.

Lemma dedup_snoc (p : list A) (d : A) :
  remove_exact_duplicates repr (p ++ [d])
  = if decide (repr d ∈ map repr p) then remove_exact_duplicates repr p
    else remove_exact_duplicates repr p ++ [d].
Proof.
  unfold remove_exact_duplicates. rewrite dedup_loop_snoc.
  pose proof (dedup_loop_seen p (repr d)) as Hseen.
  destruct (dedup_loop repr p) as [seen uniq]; simpl in *.
  repeat case_decide; simpl; naive_solver.
Qed.

Lemma dedup_reprs (lst : list A) (r : R) :
  r ∈ map repr (remove_exact_duplicates repr lst) ↔ r ∈ map repr lst.
Proof.
  induction lst as [|d p IH] using rev_ind; [done|].
  rewrite dedup_snoc. case_decide.
  - rewrite IH, map_app, elem_of_app. simpl.
    rewrite list_elem_of_singleton. naive_solver.
  - rewrite !map_app, !elem_of_app, IH. done.
Qed.

Lemma dedup_length (lst : list A) :
  (length (remove_exact_duplicates repr lst) <= length lst)%nat.
Proof.
  induction lst as [|d p IH] using rev_ind; [done|].
  rewrite dedup_snoc. case_decide; rewrite !length_app; simpl; lia.
Qed.

Lemma dedup_sublist (lst : list A) :
  sublist (remove_exact_duplicates repr lst) lst.
Proof.
  induction lst as [|d p IH] using rev_ind; [done|].
  rewrite dedup_snoc. case_decide.
  - by apply sublist_inserts_r.
  - by apply sublist_app.
Qed.

Lemma dedup_NoDup (lst : list A) :
  NoDup (map repr (remove_exact_duplicates repr lst)).
Proof.
  induction lst as [|d p IH] using rev_ind; [constructor|].
  rewrite dedup_snoc. case_decide; [done|].
  rewrite map_app. apply list.NoDup_app. split_and!; [done| |apply NoDup_singleton].
  intros r Hr. simpl. rewrite list_elem_of_singleton. intros ->.
  apply (proj1 (dedup_reprs _ _)) in Hr. contradiction.
Qed.

Lemma first_index_snoc (r : R) (p : list A) (d : A) :
  first_index repr r (p ++ [d])
  = match first_index repr r p with
    | Some a => Some a
    | None => if decide (repr d = r) then Some (length p) else None
    end.
Proof.
  induction p as [|x p IH]; simpl.
  - by case_decide.
  - destruct (decide (repr x = r)); simpl; [done|]. rewrite IH.
    destruct (first_index repr r p); simpl; [done|].
    case_decide; simpl; congruence.
Qed.

Lemma first_index_None (r : R) (p : list A) :
  first_index repr r p = None ↔ r ∉ map repr p.
Proof.
  induction p as [|x p IH]; simpl.
  - split; [intros _ H; by apply elem_of_nil in H|done].
  - rewrite not_elem_of_cons. case_decide.
    + naive_solver.
    + rewrite fmap_None, IH. naive_solver.
Qed.

(** Every survivor is the first record of the input with its hashable
    form. *)
Lemma dedup_first (lst : list A) (x : A) :
  x ∈ remove_exact_duplicates repr lst →
  ∃ a, first_index repr (repr x) lst = Some a ∧ lst !! a = Some x.
Proof.
  induction lst as [|d p IH] using rev_ind.
  - intros H; by apply elem_of_nil in H.
  - rewrite dedup_snoc, first_index_snoc. intros Hx.
    assert (Hold : x ∈ remove_exact_duplicates repr p →
              ∃ a, match first_index repr (repr x) p with
                   | Some a0 => Some a0
                   | None => if decide (repr d = repr x)
                             then Some (length p) else None
                   end = Some a ∧ (p ++ [d]) !! a = Some x).
    { intros H. destruct (IH H) as (a & Ha & Hl). exists a.
      rewrite Ha. split; [done|]. by apply lookup_app_l_Some. }
    destruct (decide (repr d ∈ map repr p)) as [Hin|Hin]; [by apply Hold|].
    apply elem_of_app in Hx as [Hx|Hx]; [by apply Hold|].
    apply list_elem_of_singleton in Hx as ->.
    apply first_index_None in Hin. rewrite Hin.
    exists (length p). rewrite decide_True by done.
    split; [done|]. by rewrite list_lookup_middle.
Qed.

Lemma dedup_fixed (lst : list A) :
  NoDup (map repr lst) → remove_exact_duplicates repr lst = lst.
Proof.
  induction lst as [|d p IH] using rev_ind; [done|].
  rewrite map_app. intros Hnd. apply list.NoDup_app in Hnd as (Hp & Hd & _).
  rewrite dedup_snoc, IH by done. case_decide as Hin; [|done].
  exfalso. apply (Hd _ Hin). simpl. by apply list_elem_of_singleton.
Qed.

(** C7.  Exact-duplicate removal never lengthens the list, keeps the
    survivors in the order of the input, each of them being the first
    record of the input with its content, and returns its own output
    unchanged. *)
Theorem remove_exact_duplicates_spec (lst : list A) :
  let out := remove_exact_duplicates repr lst in
  (length out <= length lst)%nat
  ∧ sublist out lst
  ∧ (∀ x, x ∈ out →
       ∃ a, first_index repr (repr x) lst = Some a ∧ lst !! a = Some x)
  ∧ (∀ x, x ∈ lst → ∃ y, y ∈ out ∧ repr y = repr x)
  ∧ NoDup (map repr out)
  ∧ remove_exact_duplicates repr out = out.
Proof.
  simpl. split_and!.
  - apply dedup_length.
  - apply dedup_sublist.
  - apply dedup_first.
  - intros x Hx.
    assert (Hr : repr x ∈ map repr lst) by (apply list_elem_of_fmap; eauto).
    apply (proj2 (dedup_reprs _ _)), list_elem_of_fmap in Hr as (y & ? & ?).
    eauto.
  - apply dedup_NoDup.
  - apply dedup_fixed, dedup_NoDup.
Qed.
End DedupFacts.

(** ** Embedder *)

Lemma split_from_nonempty (cur text : pystr) :
  cur ≠ [] → split_from cur text ≠ [].
Proof.
  revert cur. induction text as [|c rest IH]; intros cur Hcur; simpl.
  - by destruct cur.
  - destruct (py_isspace c).
    + by destruct cur.
    + apply IH. by destruct cur.
Qed.

Lemma py_join_cons (sep w : pystr) (ws : list pystr) :
  py_join sep (w :: ws)
  = match ws with [] => w | _ => w ++ sep ++ py_join sep ws end.
Proof. by destruct ws. Qed.

Lemma trim_right_cons (c : N) (text : pystr) :
  py_isspace c = false → trim_right (c :: text) = c :: trim_right text.
Proof. intros Hc. simpl. rewrite Hc. by destruct (trim_right text). Qed.

Lemma trim_right_keep (c : N) (text : pystr) :
  trim_right text ≠ [] → trim_right (c :: text) = c :: trim_right text.
Proof. intros Hne. simpl. by destruct (trim_right text). Qed.

Lemma collapse_word (c : N) (rest : pystr) :
  py_isspace c = false →
  collapse_whitespace (c :: rest) = c :: collapse_whitespace rest.
Proof. intros Hc. simpl. by rewrite Hc. Qed.

Lemma collapse_gap_gap (c c' : N) (rest : pystr) :
  py_isspace c = true → py_isspace c' = true →
  collapse_whitespace (c :: c' :: rest) = collapse_whitespace (c' :: rest).
Proof.
  intros Hc Hc'. change (collapse_whitespace (c :: c' :: rest))
    with (if py_isspace c
          then (if py_isspace c' then collapse_whitespace (c' :: rest)
                else 32%N :: collapse_whitespace (c' :: rest))
          else c :: collapse_whitespace (c' :: rest)).
  by rewrite Hc, Hc'.
Qed.

Lemma collapse_gap_word (c c' : N) (rest : pystr) :
  py_isspace c = true → py_isspace c' = false →
  collapse_whitespace (c :: c' :: rest)
  = 32%N :: c' :: collapse_whitespace rest.
Proof.
  intros Hc Hc'. change (collapse_whitespace (c :: c' :: rest))
    with (if py_isspace c
          then (if py_isspace c' then collapse_whitespace (c' :: rest)
                else 32%N :: collapse_whitespace (c' :: rest))
          else c :: collapse_whitespace (c' :: rest)).
  by rewrite Hc, Hc', collapse_word.
Qed.

Lemma split_from_gap (cur : pystr) (c : N) (rest : pystr) :
  py_isspace c = true →
  split_from cur (c :: rest)
  = (if cur is [] then [] else [cur]) ++ split_from [] rest.
Proof. intros Hc. simpl. by rewrite Hc. Qed.

Lemma split_from_word (cur : pystr) (c : N) (rest : pystr) :
  py_isspace c = false →
  split_from cur (c :: rest) = split_from (cur ++ [c]) rest.
Proof. intros Hc. simpl. by rewrite Hc. Qed.

(** Reading on from inside a word, and reading on after a whitespace. *)
Lemma split_join_collapse (text : pystr) :
  (∀ cur, cur ≠ [] →
     py_join [32%N] (split_from cur text)
     = cur ++ trim_right (collapse_whitespace text))
  ∧ (∀ c, py_isspace c = true →
       trim_right (collapse_whitespace (c :: text))
       = match split_from [] text with
         | [] => []
         | ws => 32%N :: py_join [32%N] ws
         end).
Proof.
  induction text as [|c' rest [IHword IHgap]].
  - split.
    + intros cur Hcur. destruct cur; [done|]. simpl. by rewrite app_nil_r.
    + intros c Hc. simpl. by rewrite Hc.
  - split.
    + intros cur Hcur. destruct (py_isspace c') eqn:Hc'.
      * rewrite split_from_gap by done.
        destruct cur as [|x cur]; [done|].
        change ([x :: cur] ++ split_from [] rest)
          with ((x :: cur) :: split_from [] rest).
        rewrite py_join_cons, (IHgap c' Hc').
        destruct (split_from [] rest); [by rewrite app_nil_r|done].
      * rewrite split_from_word, IHword by (done || by destruct cur).
        rewrite collapse_word, trim_right_cons by done.
        by rewrite <- app_assoc.
    + intros c Hc. destruct (py_isspace c') eqn:Hc'.
      * rewrite collapse_gap_gap, split_from_gap by done.
        apply (IHgap c' Hc').
      * pose proof (split_from_nonempty [c'] rest) as Hne.
        assert (H32 : py_isspace 32%N = false → False) by done.
        rewrite collapse_gap_word, split_from_word by done.
        change ([] ++ [c']) with [c'].
        pose proof (IHword [c']) as Hw.
        destruct (split_from [c'] rest) as [|w ws] eqn:Hs; [by destruct Hne|].
        rewrite Hw by done.
        rewrite trim_right_keep by (by rewrite trim_right_cons).
        by rewrite trim_right_cons.
Qed.

Lemma trim_left_collapse (c : N) (text : pystr) :
  py_isspace c = true →
  trim_left (collapse_whitespace (c :: text))
  = trim_left (collapse_whitespace text).
Proof.
  intros Hc. destruct text as [|c' rest]; [by simpl; rewrite Hc|].
  destruct (py_isspace c') eqn:Hc'.
  - by rewrite collapse_gap_gap.
  - rewrite collapse_gap_word, collapse_word by done. simpl. by rewrite Hc'.
Qed.

Lemma split_join_normalize (text : pystr) :
  py_join [32%N] (py_split text) = trim (collapse_whitespace text).
Proof.
  unfold py_split, trim. induction text as [|c rest IH]; [done|].
  destruct (py_isspace c) eqn:Hc.
  - by rewrite trim_left_collapse, split_from_gap.
  - rewrite split_from_word, collapse_word by done.
    change ([] ++ [c]) with [c].
    rewrite (proj1 (split_join_collapse rest) [c]) by done.
    cbn [trim_left]. rewrite Hc. by rewrite trim_right_cons.
Qed.

Example preprocess_mixed :
  preprocess (of_string "  a " ++ [233%N; 160%N] ++ of_string " b	c  ")
  = of_string "a b c".
Proof. vm_compute. reflexivity. Qed.

Lemma strip_non_ascii_delete (text : pystr) :
  strip_non_ascii text = delete_non_ascii text.
Proof.
  unfold strip_non_ascii, pystr. induction text as [|c rest IH]; [done|].
  rewrite filter_cons. simpl. destruct (N.leb_spec c 127).
  - rewrite decide_True by done. by rewrite IH.
  - rewrite decide_False by lia. done.
Qed.

Lemma delete_non_ascii_app (a b : pystr) :
  delete_non_ascii (a ++ b) = delete_non_ascii a ++ delete_non_ascii b.
Proof.
  induction a as [|c a IH]; [done|]. simpl.
  destruct (c <=? 127)%N; simpl; by rewrite IH.
Qed.

Lemma delete_non_ascii_sublist (text : pystr) :
  delete_non_ascii text `sublist_of` text.
Proof.
  induction text as [|c rest IH]; [done|]. simpl.
  destruct (c <=? 127)%N; by constructor.
Qed.

Lemma delete_non_ascii_elem (text : pystr) (c : N) :
  c ∈ delete_non_ascii text ↔ c ∈ text ∧ (c <= 127)%N.
Proof.
  induction text as [|x rest IH]; simpl.
  - split; [intros H; by apply elem_of_nil in H|].
    intros [H _]. by apply elem_of_nil in H.
  - destruct (N.leb_spec x 127) as [Hx|Hx].
    + rewrite !elem_of_cons, IH. naive_solver.
    + rewrite IH, elem_of_cons. split; [naive_solver|].
      intros [[->|?] ?]; [lia|done].
Qed.

(** The characters of the words of [text.split()] and of their join. *)
Lemma split_from_word_chars (cur text w : pystr) (c : N) :
  w ∈ split_from cur text → c ∈ w → c ∈ cur ∨ c ∈ text.
Proof.
  revert cur. induction text as [|x rest IH]; intros cur Hw Hc.
  - simpl in Hw. destruct cur; [by apply elem_of_nil in Hw|].
    apply list_elem_of_singleton in Hw as ->. by left.
  - destruct (py_isspace x) eqn:Hx.
    + rewrite split_from_gap in Hw by done.
      apply elem_of_app in Hw as [Hw|Hw].
      * destruct cur; [by apply elem_of_nil in Hw|].
        apply list_elem_of_singleton in Hw as ->. by left.
      * destruct (IH [] Hw Hc) as [Hn|Hin]; [by apply elem_of_nil in Hn|].
        right. by right.
    + rewrite split_from_word in Hw by done.
      destruct (IH _ Hw Hc) as [Hin|Hin]; [|right; by right].
      apply elem_of_app in Hin as [Hin|Hin]; [by left|].
      apply list_elem_of_singleton in Hin as ->. right. by left.
Qed.

Lemma py_split_word_chars (text w : pystr) (c : N) :
  w ∈ py_split text → c ∈ w → c ∈ text.
Proof.
  intros Hw Hc. destruct (split_from_word_chars [] text w c Hw Hc)
    as [Hn|?]; [by apply elem_of_nil in Hn|done].
Qed.

Lemma py_join_space_chars (ws : list pystr) (c : N) :
  c ∈ py_join [32%N] ws → c = 32%N ∨ ∃ w, w ∈ ws ∧ c ∈ w.
Proof.
  induction ws as [|w ws IH]; [intros H; by apply elem_of_nil in H|].
  rewrite py_join_cons. destruct ws as [|w' ws].
  - intros Hc. right. exists w. split; [by left|done].
  - rewrite !elem_of_app. intros [Hc|[Hc|Hc]].
    + right. exists w. split; [by left|done].
    + left. by apply list_elem_of_singleton in Hc.
    + destruct (IH Hc) as [->|(v & Hv & Hcv)]; [by left|].
      right. exists v. split; [by right|done].
Qed.

Section EmbedderFacts.
Context (E : External).

(** C6.  [create_embedding] sends to the embedding service the input with
    every code point above 0x7F deleted (each other character kept, in
    order, none replaced), then every run of whitespace collapsed to one
    space and both ends trimmed. *)
Theorem create_embedding_normalizes (text : pystr) :
  create_embedding E text = ollama_embeddings E (spec_normalize text)
  ∧ preprocess text = trim (collapse_whitespace (delete_non_ascii text))
  ∧ delete_non_ascii text `sublist_of` text
  ∧ (∀ c, c ∈ delete_non_ascii text ↔ c ∈ text ∧ (c <= 127)%N)
  ∧ (∀ a b, text = a ++ b →
       delete_non_ascii text = delete_non_ascii a ++ delete_non_ascii b)
  ∧ (∀ c, delete_non_ascii [c] = if decide (c <= 127)%N then [c] else [])
  ∧ (∀ c, c ∈ preprocess text → (c <= 127)%N ∧ (c ∈ text ∨ c = 32%N)).
Proof.
  assert (Hpre : preprocess text
                 = trim (collapse_whitespace (delete_non_ascii text))).
  { unfold preprocess. change (of_string " ") with [32%N].
    by rewrite split_join_normalize, strip_non_ascii_delete. }
  split_and!.
  - unfold create_embedding, spec_normalize. by rewrite Hpre.
  - done.
  - apply delete_non_ascii_sublist.
  - apply delete_non_ascii_elem.
  - intros a b ->. apply delete_non_ascii_app.
  - intros c. simpl. destruct (N.leb_spec c 127).
    + by rewrite decide_True.
    + rewrite decide_False; [done|lia].
  - intros c Hc. unfold preprocess in Hc.
    change (of_string " ") with [32%N] in Hc.
    apply py_join_space_chars in Hc as [->|(w & Hw & Hcw)];
      [split; [lia|by right]|].
    apply py_split_word_chars with (c := c) in Hw; [|done].
    rewrite strip_non_ascii_delete in Hw.
    apply delete_non_ascii_elem in Hw as [? ?]. split; [done|by left].
Qed.
End EmbedderFacts.

(** ** Best-effort JSON extraction *)

Lemma strip_prefix_app (pre rest : pystr) :
  lbrace ∉ pre → strip_prefix (pre ++ lbrace :: rest) = lbrace :: rest.
Proof.
  induction pre as [|c pre IH]; intros Hpre; simpl.
  - done.
  - apply not_elem_of_cons in Hpre as [Hc Hpre].
    case_decide; [congruence|by apply IH].
Qed.

Lemma no_rbrace_forallb (text : pystr) :
  forallb (fun x => negb (x =? rbrace)%N) text = true ↔ rbrace ∉ text.
Proof.
  induction text as [|c text IH]; simpl.
  - split; [intros _ H; by apply elem_of_nil in H|done].
  - rewrite andb_true_iff, IH, not_elem_of_cons, negb_true_iff, N.eqb_neq.
    naive_solver.
Qed.

Lemma strip_suffix_none (text : pystr) :
  rbrace ∉ text → strip_suffix text = [].
Proof.
  intros H. apply no_rbrace_forallb in H. destruct text; [done|].
  unfold strip_suffix. by rewrite H.
Qed.

Lemma strip_suffix_cons (c : N) (rest : pystr) :
  rbrace ∈ c :: rest → strip_suffix (c :: rest) = c :: strip_suffix rest.
Proof.
  intros Hin. change (strip_suffix (c :: rest))
    with (if forallb (fun x => negb (x =? rbrace)%N) (c :: rest) then []
          else c :: strip_suffix rest).
  destruct (forallb _ (c :: rest)) eqn:Hall; [|done].
  by apply no_rbrace_forallb in Hall.
Qed.

Lemma strip_suffix_app (body post : pystr) :
  rbrace ∉ post →
  strip_suffix (body ++ rbrace :: post) = body ++ [rbrace].
Proof.
  intros Hpost. induction body as [|c body IH].
  - simpl app. rewrite strip_suffix_cons by by left.
    by rewrite strip_suffix_none.
  - simpl app. rewrite strip_suffix_cons, IH; [done|].
    right. apply elem_of_app. right. by left.
Qed.

Lemma strip_suffix_some (text : pystr) :
  strip_suffix text ≠ [] → rbrace ∈ text.
Proof.
  intros H. destruct (decide (rbrace ∈ text)) as [|Hn]; [done|].
  by apply strip_suffix_none in Hn.
Qed.

Lemma strip_prefix_some (text : pystr) :
  strip_prefix text = []
  ∨ ∃ pre rest, text = pre ++ lbrace :: rest
                ∧ strip_prefix text = lbrace :: rest.
Proof.
  induction text as [|c text IH]; [by left|]. simpl.
  case_decide as Hc.
  - right. exists [], text. by subst.
  - destruct IH as [IH|(pre & rest & -> & IH)]; [by left|].
    right. by exists (c :: pre), rest.
Qed.

Lemma extract_json_wrapped (pre mid post : pystr) :
  lbrace ∉ pre → rbrace ∉ post →
  extract_json (pre ++ lbrace :: mid ++ rbrace :: post)
  = lbrace :: mid ++ [rbrace].
Proof.
  intros Hpre Hpost. unfold extract_json.
  rewrite strip_prefix_app by done.
  change (lbrace :: mid ++ rbrace :: post)
    with ((lbrace :: mid) ++ rbrace :: post).
  by rewrite strip_suffix_app.
Qed.

Lemma elem_of_split_last (x : N) (l : pystr) :
  x ∈ l → ∃ a b, l = a ++ x :: b ∧ x ∉ b.
Proof.
  induction l as [|y l IH]; intros Hin; [by apply elem_of_nil in Hin|].
  destruct (decide (x ∈ l)) as [Hl|Hl].
  - destruct (IH Hl) as (a & b & -> & Hb). by exists (y :: a), b.
  - apply elem_of_cons in Hin as [->|Hin]; [|done]. by exists [], l.
Qed.

Lemma strip_prefix_first (text : pystr) :
  strip_prefix text = []
  ∨ ∃ pre rest, text = pre ++ lbrace :: rest ∧ lbrace ∉ pre.
Proof.
  induction text as [|c text IH]; [by left|]. simpl.
  case_decide as Hc.
  - right. exists [], text. subst. split; [done|apply not_elem_of_nil].
  - destruct IH as [IH|(pre & rest & -> & Hpre)]; [by left|].
    right. exists (c :: pre), rest. split; [done|].
    apply not_elem_of_cons. split; [congruence|done].
Qed.

(** Every text is emptied, or cut down to what lies from its first opening
    brace to its last closing brace. *)
Lemma extract_json_cases (text : pystr) :
  extract_json text = []
  ∨ ∃ pre mid post,
      text = pre ++ lbrace :: mid ++ rbrace :: post
      ∧ lbrace ∉ pre ∧ rbrace ∉ post
      ∧ extract_json text = lbrace :: mid ++ [rbrace].
Proof.
  destruct (strip_prefix_first text) as [Hnil|(pre & rest & -> & Hpre)].
  - left. unfold extract_json. by rewrite Hnil.
  - destruct (decide (rbrace ∈ rest)) as [Hin|Hn].
    + apply elem_of_split_last in Hin as (mid & post & -> & Hpost).
      right. exists pre, mid, post. split_and!; [done|done|done|].
      by apply extract_json_wrapped.
    + left. unfold extract_json. rewrite strip_prefix_app by done.
      apply strip_suffix_none. apply not_elem_of_cons. split; [done|done].
Qed.

Lemma extract_json_nothing (text : pystr) :
  (∀ pre mid post, text ≠ pre ++ lbrace :: mid ++ rbrace :: post) →
  extract_json text = [].
Proof.
  intros Hno. unfold extract_json.
  destruct (strip_prefix_some text) as [->|(pre & rest & -> & ->)]; [done|].
  destruct (decide (rbrace ∈ lbrace :: rest)) as [Hin|Hn].
  - apply elem_of_cons in Hin as [?|Hin]; [done|].
    apply list_elem_of_split in Hin as (mid & post & ->).
    by destruct (Hno pre mid post).
  - by apply strip_suffix_none.
Qed.

Example extract_json_prose :
  extract_json (of_string "Sure! " ++ Demo.answer "3" ++ of_string " Thanks.")
  = Demo.answer "3".
Proof. vm_compute. reflexivity. Qed.

Example extract_json_nested_prose :
  extract_json (of_string "as {asked}: " ++ Demo.answer "3")
  = of_string "{asked}: " ++ Demo.answer "3".
Proof. vm_compute. reflexivity. Qed.

Section JsonFacts.
Context (E : External).

(** C5.  From a response that has an opening brace before a closing one,
    extraction removes exactly what precedes the first opening brace and
    what follows the last closing brace, and it is what is left that the
    loop gives to [json.loads]: a failure to parse it is the failure of the
    [try] block, and a parsed value is what lines 228 to 232 work on.  An
    object wrapped in leading prose without an opening brace and trailing
    prose without a closing brace comes out unchanged.  A response without
    such a pair of braces is emptied, and every response is emptied or cut
    down to what lies from its first opening brace to its last closing
    one. *)
Theorem extract_json_spec (pre mid post : pystr)
    (Hpre : lbrace ∉ pre) (Hpost : rbrace ∉ post) :
  let raw := pre ++ lbrace :: mid ++ rbrace :: post in
  let object := lbrace :: mid ++ [rbrace] in
  extract_json raw = object
  ∧ extract_json object = object
  ∧ (∀ i st,
       curate_response E i raw st
       = match json_loads E object with
         | Ok response => merge_response E i response st
         | Raise e => (Raise e, st)
         end)
  ∧ (∀ text,
       (∀ pre mid post, text ≠ pre ++ lbrace :: mid ++ rbrace :: post) →
       extract_json text = [])
  ∧ (∀ text,
       extract_json text = []
       ∨ ∃ pre mid post,
           text = pre ++ lbrace :: mid ++ rbrace :: post
           ∧ lbrace ∉ pre ∧ rbrace ∉ post
           ∧ extract_json text = lbrace :: mid ++ [rbrace]).
Proof.
  simpl.
  assert (H1 : extract_json (pre ++ lbrace :: mid ++ rbrace :: post)
               = lbrace :: mid ++ [rbrace]) by by apply extract_json_wrapped.
  assert (H2 : extract_json (lbrace :: mid ++ [rbrace])
               = lbrace :: mid ++ [rbrace]).
  { apply (extract_json_wrapped [] mid []); apply not_elem_of_nil. }
  split_and!; [done|done| |apply extract_json_nothing|apply extract_json_cases].
  intros i st. unfold curate_response, merge_response. rewrite H1.
  unfold sbind at 1. unfold slift at 1.
  by destruct (json_loads E (lbrace :: mid ++ [rbrace])).
Qed.
End JsonFacts.

(** The example of the specification: [Sure! {...} Thanks.] *)
Lemma extract_json_spec_witness :
  (lbrace ∉ of_string "Sure! ") ∧ (rbrace ∉ of_string " Thanks.")
  ∧ extract_json (of_string "Sure! " ++ Demo.answer "3" ++ of_string " Thanks.")
    = Demo.answer "3".
Proof.
  assert (Hpre : lbrace ∉ of_string "Sure! ")
    by (apply (bool_decide_unpack _); vm_compute; exact I).
  assert (Hpost : rbrace ∉ of_string " Thanks.")
    by (apply (bool_decide_unpack _); vm_compute; exact I).
  split_and!; [exact Hpre|exact Hpost|].
  exact (proj1 (extract_json_spec Demo.ext (of_string "Sure! ")
                  (Demo.answer_fields "3") (of_string " Thanks.")
                  Hpre Hpost)).
Defined.

(** An object after prose that itself holds a brace: what is extracted
    starts at the brace of the prose, so the object does not come out
    unchanged. *)
Lemma extract_json_prose_with_brace :
  extract_json (of_string "as {asked}: " ++ Demo.answer "3")
  = of_string "{asked}: " ++ Demo.answer "3"
  ∧ extract_json (of_string "as {asked}: " ++ Demo.answer "3")
    ≠ Demo.answer "3".
Proof. split; [vm_compute; reflexivity|vm_compute; discriminate]. Qed.

(** ** Curator *)

(** Refutes [accepted] from the equations of the branch at hand. *)
Ltac not_accepted :=
  let m := fresh "m" in
  let H1 := fresh in let H2 := fresh in let H3 := fresh in
  let H4 := fresh in let H5 := fresh in let H6 := fresh in
  intros (? & ? & m & ? & ? & H1 & H2 & H3 & H4 & H5 & H6);
  first
    [ congruence
    | match goal with
      | Hle : (?n <= 0) |- _ => assert (m = n) by congruence; lia
      end ].

Section CuratorFacts.
Context (E : External).

Lemma find_job_lookup (jobs : list job) (Id : pystr) (i : nat) (d : job) :
  find_job jobs Id = Some (i, d) → jobs !! i = Some d ∧ id_ d = Id.
Proof.
  revert i. induction jobs as [|x jobs IH]; intros i; simpl; [done|].
  case_decide as Hid.
  - intros [= <- <-]. done.
  - destruct (find_job jobs Id) as [[k e]|] eqn:Hf; simpl; [|done].
    intros [= <- <-]. by apply IH.
Qed.

(** What lines 226 to 232 do, by the first statement that raises. *)
Lemma curate_response_cases (i : nat) (raw : pystr) (st : curation) :
  (∃ response score n job_summary match_summary,
      json_loads E (extract_json raw) = Ok response
      ∧ getitem response (of_string "Suitability") = Ok score
      ∧ py_int E score = Ok n ∧ 0 < n
      ∧ getitem response (of_string "Job_summary") = Ok job_summary
      ∧ getitem response (of_string "Match_summary") = Ok match_summary
      ∧ curate_response E i raw st
        = (Ok tt, curated E i score job_summary match_summary st))
  ∨ (¬ accepted E raw
     ∧ final_jobs (curate_response E i raw st).2 = final_jobs st
     ∧ ((curate_response E i raw st).2 = st
        ∨ ∃ job_summary,
            (curate_response E i raw st).2
            = update_job i (set_summary job_summary) st)).
Proof.
  unfold curate_response, accepted, sbind, slift, smodify, sret.
  destruct (json_loads E (extract_json raw)) as [response|e] eqn:Hload;
    [|by right; split; [not_accepted|simpl; auto]].
  destruct (getitem response (of_string "Suitability")) as [score|e]
    eqn:Hscore; [|by right; split; [not_accepted|simpl; auto]].
  destruct (py_int E score) as [n|e] eqn:Hint;
    [|by right; split; [not_accepted|simpl; auto]].
  destruct (0 <? n) eqn:Hpos;
    [apply Z.ltb_lt in Hpos
    |apply Z.ltb_ge in Hpos; by right; split; [not_accepted|simpl; auto]].
  destruct (getitem response (of_string "Job_summary")) as [js|e] eqn:Hjs;
    [|by right; split; [not_accepted|simpl; auto]].
  destruct (getitem response (of_string "Match_summary")) as [ms|e] eqn:Hms.
  - left. exists response, score, n, js, ms. by rewrite Hscore.
  - right. split; [not_accepted|simpl; eauto].
Qed.

Lemma curate_run (profile Id : pystr) (st : curation) (w w' : world E)
    (i : nat) (d : job) (raw : pystr) :
  find_job (jobs_list st) Id = Some (i, d) →
  ollama_generate E (build_prompt profile d) w = (Ok raw, w') →
  curate E profile Id st w = (Ok (curate_response E i raw st).2, w').
Proof.
  intros Hfind Hgen. unfold curate, sbind, sret, try_except.
  by rewrite Hfind, Hgen.
Qed.

(** C2.  A candidate whose record is found and whose generation call
    returns is appended to [final_jobs] exactly when its response parses,
    holds [Suitability], [Job_summary] and [Match_summary], and
    [Suitability] coerces to an integer above 0; otherwise [final_jobs]
    is left as it was; either way the loop goes on with the remaining
    candidates. *)
Theorem curator_keeps_iff_valid (profile Id : pystr) (rest : list pystr)
    (st : curation) (w w' : world E) (i : nat) (d : job) (raw : pystr) :
  find_job (jobs_list st) Id = Some (i, d) →
  ollama_generate E (build_prompt profile d) w = (Ok raw, w') →
  ∃ st', curate E profile Id st w = (Ok st', w')
    ∧ (accepted E raw ↔ final_jobs st' = final_jobs st ++ [i])
    ∧ (¬ accepted E raw → final_jobs st' = final_jobs st)
    ∧ curation_loop E profile (Id :: rest) st w
      = curation_loop E profile rest st' w'.
Proof.
  intros Hfind Hgen. pose proof (curate_run profile Id st w w' i d raw
                                   Hfind Hgen) as Hrun.
  exists (curate_response E i raw st).2. split; [done|].
  split_and!.
  - destruct (curate_response_cases i raw st)
      as [(r & sc & n & js & ms & ? & ? & ? & ? & ? & ? & ->)
         |(Hno & -> & _)].
    + split; [done|]. intros _. by exists r, sc, n, js, ms.
    + split; [done|]. intros Heq.
      apply (f_equal length) in Heq. rewrite length_app in Heq.
      simpl in Heq. lia.
  - intros Hno. destruct (curate_response_cases i raw st)
      as [(r & sc & n & js & ms & ? & ? & ? & ? & ? & ? & _)
         |(_ & -> & _)]; [|done].
    destruct Hno. by exists r, sc, n, js, ms.
  - cbn [curation_loop]. unfold sbind at 1. by rewrite Hrun.
Qed.

(** C10.  When the parsed response is a dict with an integer
    [Suitability] above 0 and a [Job_summary] but no [Match_summary], the
    candidate is not appended to [final_jobs], yet its record has changed:
    [summary] now holds the response's [Job_summary], while [match] and
    [suitability] are as they were. *)
Theorem missing_match_summary_partial (profile Id : pystr) (st : curation)
    (w w' : world E) (i : nat) (d : job) (raw : pystr)
    (fields : list (pystr * pyval)) (n : Z) (job_summary : pyval) :
  find_job (jobs_list st) Id = Some (i, d) →
  ollama_generate E (build_prompt profile d) w = (Ok raw, w') →
  json_loads E (extract_json raw) = Ok (PDict fields) →
  dict_get fields (of_string "Suitability") = Some (PInt n) →
  0 < n →
  dict_get fields (of_string "Job_summary") = Some job_summary →
  dict_get fields (of_string "Match_summary") = None →
  ∃ st', curate E profile Id st w = (Ok st', w')
    ∧ final_jobs st' = final_jobs st
    ∧ jobs_list st' = alter (set_summary job_summary) i (jobs_list st)
    ∧ jobs_list st' !! i = Some (set_summary job_summary d)
    ∧ summary (set_summary job_summary d) = Some job_summary
    ∧ match_ (set_summary job_summary d) = match_ d
    ∧ suitability (set_summary job_summary d) = suitability d
    ∧ (summary d ≠ Some job_summary → jobs_list st' ≠ jobs_list st).
Proof.
  intros Hfind Hgen Hload Hscore Hpos Hjs Hms.
  destruct (find_job_lookup _ _ _ _ Hfind) as [Hi _].
  exists (curate_response E i raw st).2.
  split; [eapply curate_run; eassumption|].
  assert (Hst : (curate_response E i raw st).2
                = update_job i (set_summary job_summary) st).
  { unfold curate_response, sbind, slift, smodify, sret.
    rewrite Hload. unfold getitem. rewrite Hscore, Hjs, Hms. simpl.
    apply Z.ltb_lt in Hpos. by rewrite Hpos. }
  rewrite Hst. simpl.
  assert (Hnew : alter (set_summary job_summary) i (jobs_list st) !! i
                 = Some (set_summary job_summary d)).
  { by rewrite list_lookup_alter_eq, Hi. }
  split_and!; try done.
  intros Hne Heq. rewrite Heq, Hi in Hnew.
  injection Hnew as Hd. apply Hne. by rewrite Hd.
Qed.

(** ** What reaches the final sort *)

Lemma enriched_set_summary (v : pyval) (d : job) :
  enriched E d → enriched E (set_summary v d).
Proof. intros (_ & ? & ?). by split_and!. Qed.

Lemma enriched_set_match (v : pyval) (d : job) :
  enriched E d → enriched E (set_match v d).
Proof. intros (? & _ & ?). by split_and!. Qed.

Lemma enriched_set_suitability (v : pyval) (n : Z) (d : job) :
  py_int E v = Ok n → 0 < n →
  is_Some (summary d) → is_Some (match_ d) →
  enriched E (set_suitability (KStr (py_str E v)) d).
Proof. intros. split_and!; [done|done|]. by exists v, n. Qed.

Lemma all_enriched_update (i : nat) (f : job → job) (st : curation) :
  (∀ d, enriched E d → enriched E (f d)) →
  all_enriched E st → all_enriched E (update_job i f st).
Proof.
  intros Hf Hinv j Hj. destruct (Hinv j Hj) as (d & Hd & He). simpl.
  destruct (decide (i = j)) as [->|Hne].
  - exists (f d). rewrite list_lookup_alter_eq, Hd. by auto.
  - exists d. by rewrite list_lookup_alter_ne.
Qed.

Lemma all_enriched_curate (profile Id : pystr) (st st' : curation)
    (w w' : world E) :
  all_enriched E st →
  curate E profile Id st w = (Ok st', w') →
  all_enriched E st'.
Proof.
  intros Hinv. unfold curate.
  destruct (find_job (jobs_list st) Id) as [[i d]|] eqn:Hfind; [|done].
  destruct (find_job_lookup _ _ _ _ Hfind) as [Hi _].
  unfold sbind, sret, try_except.
  destruct (ollama_generate E (build_prompt profile d) w) as [[raw|e] w1];
    [|done].
  intros [= <- <-]. simpl.
  destruct (curate_response_cases i raw st)
    as [(r & sc & n & js & ms & ? & ? & Hint & Hpos & ? & ? & ->)
       |(_ & _ & [->| [js ->]])]; [|done|].
  - intros j Hj. simpl in Hj. apply elem_of_app in Hj as [Hj|Hj].
    + apply (all_enriched_update i _ (update_job i _ (update_job i _ st)));
        [|apply all_enriched_update;
          [apply enriched_set_match
          |apply all_enriched_update; [apply enriched_set_summary|done]]
        |done].
      intros d0 (? & ? & ?). by eapply enriched_set_suitability.
    + apply list_elem_of_singleton in Hj as ->. simpl.
      rewrite !list_lookup_alter_eq, Hi. simpl. eexists; split; [done|].
      by eapply enriched_set_suitability.
  - apply all_enriched_update; [apply enriched_set_summary|done].
Qed.

Lemma all_enriched_loop (profile : pystr) (ids : list pystr)
    (st st' : curation) (w w' : world E) :
  all_enriched E st →
  curation_loop E profile ids st w = (Ok st', w') →
  all_enriched E st'.
Proof.
  revert st w. induction ids as [|Id rest IH]; intros st w Hinv; simpl.
  - by intros [= <- _].
  - unfold sbind at 1.
    destruct (curate E profile Id st w) as [[st1|e] w1] eqn:Hc; [|done].
    apply IH. by eapply all_enriched_curate.
Qed.

Lemma deref_all_enriched (st : curation) :
  all_enriched E st →
  length (deref st) = length (final_jobs st)
  ∧ ∀ d, d ∈ deref st → enriched E d.
Proof.
  unfold all_enriched, deref. induction (final_jobs st) as [|i l IH].
  - intros _. split; [done|]. intros d Hd. by apply elem_of_nil in Hd.
  - intros Hinv. destruct (Hinv i) as (d & Hd & He); [by left|].
    destruct IH as [IHlen IHall]; [intros j Hj; apply Hinv; by right|].
    simpl. rewrite Hd. simpl. split; [by f_equal|].
    intros d' Hd'. apply elem_of_cons in Hd' as [->|Hd']; auto.
Qed.

Lemma scored_by_mono (T T' : list (nat * pystr)) (i : nat) (d : job) :
  scored_by E T i d → scored_by E (T ++ T') i d.
Proof.
  intros (raw & r & v & n & Hin & H). exists raw, r, v, n.
  split; [|done]. apply elem_of_app. by left.
Qed.

Lemma scored_by_same (T : list (nat * pystr)) (i : nat) (d d' : job) :
  suitability d' = suitability d → scored_by E T i d → scored_by E T i d'.
Proof.
  intros Hs (raw & r & v & n & ? & ? & ? & ? & ? & Hd & Hm).
  exists raw, r, v, n. rewrite Hs. by split_and!.
Qed.

Lemma all_scored_mono (T T' : list (nat * pystr)) (st : curation) :
  all_scored E T st → all_scored E (T ++ T') st.
Proof.
  intros Hinv i Hi. destruct (Hinv i Hi) as (d & ? & ? & ? & ?).
  exists d. split_and!; try done. by apply scored_by_mono.
Qed.

Lemma all_scored_update (T : list (nat * pystr)) (i : nat) (f : job → job)
    (st : curation) :
  (∀ d, suitability (f d) = suitability d
        ∧ (is_Some (summary d) → is_Some (summary (f d)))
        ∧ (is_Some (match_ d) → is_Some (match_ (f d)))) →
  all_scored E T st → all_scored E T (update_job i f st).
Proof.
  intros Hf Hinv j Hj. destruct (Hinv j Hj) as (d & Hd & Hs & Hm & Hsc).
  simpl. destruct (decide (i = j)) as [->|Hne].
  - exists (f d). rewrite list_lookup_alter_eq, Hd.
    destruct (Hf d) as (Hsuit & Hsum & Hmat).
    split_and!; [done|by apply Hsum|by apply Hmat|].
    by apply (scored_by_same T j d).
  - exists d. by rewrite list_lookup_alter_ne.
Qed.

Lemma all_scored_curate (T : list (nat * pystr)) (i : nat) (raw : pystr)
    (d : job) (st : curation) :
  jobs_list st !! i = Some d →
  all_scored E T st →
  all_scored E (T ++ [(i, raw)]) (curate_response E i raw st).2.
Proof.
  intros Hi Hinv. apply (all_scored_mono T [(i, raw)]) in Hinv.
  destruct (curate_response_cases i raw st)
    as [(r & sc & n & js & ms & Hload & Hscore & Hint & Hpos & _ & _ & ->)
       |(_ & _ & [->| [js ->]])]; [|done|].
  - intros j Hj. simpl in Hj. simpl.
    destruct (decide (j = i)) as [->|Hne].
    + rewrite !list_lookup_alter_eq, Hi. simpl. eexists.
      split_and!; [done|done|done|].
      exists raw, r, sc, n. split_and!; try done.
      * apply elem_of_app. right. by left.
      * intros m ->. simpl in *. by simplify_eq.
    + apply elem_of_app in Hj as [Hj|Hj];
        [|apply list_elem_of_singleton in Hj; done].
      destruct (Hinv j Hj) as (d' & Hd' & ? & ? & ?).
      exists d'. rewrite !list_lookup_alter_ne by done. by split_and!.
  - apply all_scored_update; [|done]. by intros [].
Qed.

Lemma all_scored_loop (profile : pystr) (ids : list pystr)
    (T : list (nat * pystr)) (st st' : curation) (w w' : world E) :
  all_scored E T st →
  curation_loop E profile ids st w = (Ok st', w') →
  all_scored E (T ++ curation_trace E profile ids st w) st'.
Proof.
  revert T st w. induction ids as [|Id rest IH]; intros T st w Hinv.
  - simpl. intros [= <- _]. by rewrite app_nil_r.
  - cbn [curation_loop curation_trace]. unfold sbind at 1. unfold curate.
    destruct (find_job (jobs_list st) Id) as [[i d]|] eqn:Hfind; [|done].
    destruct (find_job_lookup _ _ _ _ Hfind) as [Hi _].
    unfold sbind at 1.
    destruct (ollama_generate E (build_prompt profile d) w)
      as [[raw|e] w1]; [|done].
    unfold sret at 1. unfold try_except at 1. simpl snd at 1.
    intros Hloop.
    pose proof (all_scored_curate T i raw d st Hi Hinv) as Hstep.
    pose proof (IH _ _ _ Hstep Hloop) as Hend.
    rewrite <- app_assoc in Hend. exact Hend.
Qed.

(** C8.  Every record handed to the final sort has [summary], [match] and
    [suitability] set, [suitability] being [str(v)] of the [Suitability]
    value [v] of a reply that the language model gave about that record
    during the loop, for which [int(v)] is above 0; it is the decimal form
    of that integer when [v] is a JSON integer. *)
Theorem ranker_input_enriched (profile : pystr) (ids : list pystr)
    (jobs : list job) (st' : curation) (w w' : world E) :
  curation_loop E profile ids (Curation jobs []) w = (Ok st', w') →
  length (deref st') = length (final_jobs st')
  ∧ ∀ d, d ∈ deref st' →
      is_Some (summary d) ∧ is_Some (match_ d)
      ∧ ∃ i raw response v n,
          jobs_list st' !! i = Some d
          ∧ (i, raw) ∈ curation_trace E profile ids (Curation jobs []) w
          ∧ json_loads E (extract_json raw) = Ok response
          ∧ getitem response (of_string "Suitability") = Ok v
          ∧ py_int E v = Ok n ∧ 0 < n
          ∧ suitability d = Some (KStr (py_str E v))
          ∧ (∀ m, v = PInt m →
                  suitability d = Some (KStr (str_of_int n))).
Proof.
  intros Hloop.
  pose proof (all_scored_loop profile ids [] (Curation jobs []) st' w w')
    as Hinv. simpl in Hinv.
  specialize (Hinv (fun i Hi => False_rect _ (proj1 (elem_of_nil i) Hi))
                   Hloop).
  unfold deref. clear Hloop.
  assert (Hall : ∀ i, i ∈ final_jobs st' →
            ∃ d, jobs_list st' !! i = Some d
                 ∧ is_Some (summary d) ∧ is_Some (match_ d)
                 ∧ scored_by E (curation_trace E profile ids
                                  (Curation jobs []) w) i d) by exact Hinv.
  clear Hinv. induction (final_jobs st') as [|i l IH].
  - split; [done|]. intros d Hd. by apply elem_of_nil in Hd.
  - destruct (Hall i) as (d & Hd & Hs & Hm & Hsc); [by left|].
    destruct IH as [IHlen IHall]; [intros j Hj; apply Hall; by right|].
    simpl. rewrite Hd. simpl. split; [by f_equal|].
    intros d' Hd'. apply elem_of_cons in Hd' as [->|Hd']; [|by apply IHall].
    split_and!; [done|done|].
    destruct Hsc as (raw & r & v & n & ? & ? & ? & ? & ? & ? & ?).
    exists i, raw, r, v, n. by split_and!.
Qed.
End CuratorFacts.

Lemma of_string_inj (s t : string) : of_string s = of_string t → s = t.
Proof.
  unfold of_string. intros H.
  rewrite <- (string_of_list_ascii_of_string s),
          <- (string_of_list_ascii_of_string t).
  f_equal. revert H. generalize (list_ascii_of_string t).
  induction (list_ascii_of_string s) as [|a l IH]; intros [|b k]; simpl;
    try done.
  intros [= Hab Hlk]. f_equal; [|by apply IH].
  by rewrite <- (ascii_N_embedding a), <- (ascii_N_embedding b), Hab.
Qed.

(** [str(n)] of an [int] reads back as a decimal numeral. *)
Lemma str_of_int_decimal (n : Z) (s : string) :
  DecimalString.NilZero.int_of_string s = None → str_of_int n ≠ of_string s.
Proof.
  intros Hs Heq. apply of_string_inj in Heq. subst s.
  destruct (Z.to_int n) as [u|u] eqn:Hn.
  - destruct u; try done;
      rewrite DecimalString.NilZero.isi in Hs; done.
  - destruct u; try done;
      rewrite DecimalString.NilZero.isi in Hs; done.
Qed.

Lemma curator_keeps_iff_valid_witness :
  let st := Curation [Demo.job1] [] in
  let w := Demo.start [Demo.answer "3"] in
  let w' := (Demo.generate (build_prompt Demo.profile Demo.job1) w).2 in
  ∃ st', curate Demo.ext Demo.profile (of_string "1") st w = (Ok st', w')
    ∧ (accepted Demo.ext (Demo.answer "3")
       ↔ final_jobs st' = final_jobs st ++ [0%nat])
    ∧ (¬ accepted Demo.ext (Demo.answer "3")
       → final_jobs st' = final_jobs st)
    ∧ curation_loop Demo.ext Demo.profile [of_string "1"] st w
      = curation_loop Demo.ext Demo.profile [] st' w'.
Proof.
  apply (curator_keeps_iff_valid Demo.ext Demo.profile (of_string "1") []
           (Curation [Demo.job1] []) (Demo.start [Demo.answer "3"]) _
           0%nat Demo.job1 (Demo.answer "3")); vm_compute; reflexivity.
Defined.

Lemma missing_match_summary_partial_witness :
  let st := Curation [Demo.job1] [] in
  let w := Demo.start [Demo.short_answer] in
  let w' := (Demo.generate (build_prompt Demo.profile Demo.job1) w).2 in
  let js := PStr (of_string "a") in
  ∃ st', curate Demo.ext Demo.profile (of_string "1") st w = (Ok st', w')
    ∧ final_jobs st' = final_jobs st
    ∧ jobs_list st' = alter (set_summary js) 0%nat (jobs_list st)
    ∧ jobs_list st' !! 0%nat = Some (set_summary js Demo.job1)
    ∧ summary (set_summary js Demo.job1) = Some js
    ∧ match_ (set_summary js Demo.job1) = match_ Demo.job1
    ∧ suitability (set_summary js Demo.job1) = suitability Demo.job1
    ∧ (summary Demo.job1 ≠ Some js → jobs_list st' ≠ jobs_list st).
Proof.
  apply (missing_match_summary_partial Demo.ext Demo.profile (of_string "1")
           (Curation [Demo.job1] []) (Demo.start [Demo.short_answer]) _
           0%nat Demo.job1 Demo.short_answer
           [(of_string "Suitability", PInt 3);
            (of_string "Job_summary", PStr (of_string "a"))] 3
           (PStr (of_string "a")));
    vm_compute; reflexivity.
Defined.

Lemma ranker_input_enriched_witness :
  let st' := curated Demo.ext 0 (PInt 3) (PStr (of_string "a"))
               (PStr (of_string "b")) (Curation [Demo.job1] []) in
  length (deref st') = length (final_jobs st')
  ∧ ∀ d, d ∈ deref st' →
      is_Some (summary d) ∧ is_Some (match_ d)
      ∧ ∃ i raw response v n,
          jobs_list st' !! i = Some d
          ∧ (i, raw) ∈ curation_trace Demo.ext Demo.profile [of_string "1"]
                         (Curation [Demo.job1] [])
                         (Demo.start [Demo.answer "3"])
          ∧ json_loads Demo.ext (extract_json raw) = Ok response
          ∧ getitem response (of_string "Suitability") = Ok v
          ∧ py_int Demo.ext v = Ok n ∧ 0 < n
          ∧ suitability d = Some (KStr (py_str Demo.ext v))
          ∧ (∀ m, v = PInt m →
                  suitability d = Some (KStr (str_of_int n))).
Proof.
  apply (ranker_input_enriched Demo.ext Demo.profile [of_string "1"]
           [Demo.job1] _ (Demo.start [Demo.answer "3"])
           (Demo.generate (build_prompt Demo.profile Demo.job1)
              (Demo.start [Demo.answer "3"])).2).
  vm_compute. reflexivity.
Defined.

(** A response scoring [3.5] passes the filter ([int(3.5)] is 3) and its
    record reaches the sort with the suitability [3.5], which is not the
    decimal form of any integer. *)
Lemma suitability_not_integer_form :
  ∃ st' w' d,
    curation_loop Demo.ext Demo.profile [of_string "1"]
      (Curation [Demo.job1] []) (Demo.start [Demo.answer "3.5"])
    = (Ok st', w')
    ∧ d ∈ deref st'
    ∧ ¬ ∃ n, 0 < n ∧ suitability d = Some (KStr (str_of_int n)).
Proof.
  eexists _, _, _. split; [vm_compute; reflexivity|].
  split; [by left|].
  intros (n & _ & Hs). simpl in Hs. injection Hs as Hs.
  by apply (str_of_int_decimal n "3.5").
Qed.

(** ** Ranker *)

Lemma str_lt_irrefl (a : pystr) : str_lt a a = false.
Proof.
  induction a as [|x a IH]; [done|]. simpl.
  by rewrite N.ltb_irrefl, N.eqb_refl, IH.
Qed.

Lemma str_lt_cons (x y : N) (a b : pystr) :
  str_lt (x :: a) (y :: b) = true
  ↔ (x < y)%N ∨ (x = y ∧ str_lt a b = true).
Proof.
  simpl. rewrite orb_true_iff, andb_true_iff, N.ltb_lt, N.eqb_eq. done.
Qed.

Lemma str_lt_asym (a b : pystr) :
  str_lt a b = true → str_lt b a = false.
Proof.
  revert b. induction a as [|x a IH]; intros [|y b]; try done.
  rewrite str_lt_cons. intros Hab. apply not_true_iff_false.
  rewrite str_lt_cons. intros Hba.
  destruct Hab as [?|[-> Hab]], Hba as [?|[? Hba]]; try lia.
  apply IH in Hab. congruence.
Qed.

Lemma str_le_trans (a b c : pystr) :
  str_lt b a = false → str_lt c b = false → str_lt c a = false.
Proof.
  revert b c. induction a as [|x a IH]; intros [|y b] [|z c]; try done.
  rewrite <- !not_true_iff_false, !str_lt_cons. intros Hba Hcb Hca.
  assert (Hyx : (x <= y)%N) by (apply N.le_ngt; tauto).
  assert (Hzy : (y <= z)%N) by (apply N.le_ngt; tauto).
  destruct Hca as [?|[-> Hca]]; [lia|].
  assert (y = x) as -> by lia.
  assert (Hg : str_lt c a = false); [|congruence].
  apply (IH b c); apply not_true_iff_false; tauto.
Qed.

Lemma py_lt_same_kind (a b : key) :
  same_kind a b → ∃ c, py_lt a b = Ok c.
Proof. destruct a, b; simpl; by eauto. Qed.

Lemma py_lt_irrefl (a : key) : py_lt a a = Ok false.
Proof.
  destruct a; simpl; [by rewrite Z.ltb_irrefl|by rewrite str_lt_irrefl].
Qed.

Lemma py_lt_asym (a b : key) : py_lt a b = Ok true → key_le a b.
Proof.
  unfold key_le. destruct a, b; simpl; try done; intros [= H]; f_equal.
  - apply Z.ltb_lt in H. apply Z.ltb_ge. lia.
  - by apply str_lt_asym.
Qed.

Lemma key_le_trans (a b c : key) : key_le a b → key_le b c → key_le a c.
Proof.
  unfold key_le. destruct a, b, c; simpl; try done; intros [= H1] [= H2];
    f_equal.
  - apply Z.ltb_ge in H1, H2. apply Z.ltb_ge. lia.
  - by apply (str_le_trans _ s0).
Qed.

Lemma StronglySorted_reverse {A} (R : relation A) (l : list A) :
  StronglySorted R l → StronglySorted (flip R) (reverse l).
Proof.
  induction 1 as [|a l _ IH Hall]; [constructor|].
  rewrite reverse_cons. apply StronglySorted_app_2; [|done|].
  - intros x1 x2 Hx1 Hx2. apply list_elem_of_singleton in Hx2 as ->.
    apply (proj1 (elem_of_reverse _ _)) in Hx1. unfold flip.
    rewrite Forall_forall in Hall. by apply Hall.
  - repeat constructor.
Qed.

Section SortFacts.
Context {A : Type} (keyf : A → key).

Lemma insert_sorted_spec (x : A) (l : list A) :
  Forall (fun y => same_kind (keyf y) (keyf x)) l →
  ∃ out, insert_sorted keyf x l = Ok out
    ∧ out ≡ₚ x :: l
    ∧ (∀ k, with_key keyf k out = with_key keyf k (x :: l))
    ∧ (StronglySorted (ascending keyf) l →
       StronglySorted (ascending keyf) out).
Proof.
  induction l as [|y rest IH]; intros Hall.
  - exists [x]. split_and!; try done. intros _. repeat constructor.
  - apply Forall_cons in Hall as [Hy Hall].
    destruct (py_lt_same_kind _ _ Hy) as [c Hlt].
    cbn [insert_sorted]. rewrite Hlt. destruct c; simpl.
    + destruct (IH Hall) as (out & -> & Hperm & Hkeys & Hsort). simpl.
      exists (y :: out). split_and!; [done| | |].
      * rewrite Hperm. apply perm_swap.
      * intros k. unfold with_key in *. rewrite !filter_cons, Hkeys.
        rewrite filter_cons.
        destruct (decide (keyf y = k)) as [Hyk|]; [|done].
        destruct (decide (keyf x = k)) as [Hxk|]; [|done].
        rewrite Hyk, Hxk, py_lt_irrefl in Hlt. done.
      * intros Hs. apply StronglySorted_inv in Hs as [Hs Hle].
        constructor; [by apply Hsort|].
        rewrite Hperm. constructor; [by apply py_lt_asym|done].
    + exists (x :: y :: rest). split_and!; try done.
      intros Hs. constructor; [done|].
      apply StronglySorted_inv in Hs as [_ Hle].
      constructor; [done|].
      eapply Forall_impl; [exact Hle|].
      intros z Hz. by apply (key_le_trans _ (keyf y)).
Qed.

Lemma sort_asc_spec (l : list A) :
  (∀ x y, x ∈ l → y ∈ l → same_kind (keyf x) (keyf y)) →
  ∃ out, sort_asc keyf l = Ok out
    ∧ out ≡ₚ l
    ∧ (∀ k, with_key keyf k out = with_key keyf k l)
    ∧ StronglySorted (ascending keyf) out.
Proof.
  induction l as [|x rest IH]; intros Hkind.
  - exists []. split_and!; try done. constructor.
  - destruct IH as (out & Hout & Hperm & Hkeys & Hsort).
    { intros y z Hy Hz. apply Hkind; by right. }
    destruct (insert_sorted_spec x out)
      as (out' & Hins & Hperm' & Hkeys' & Hsort').
    { apply Forall_forall. intros y Hy. rewrite Hperm in Hy.
      apply Hkind; [by right|by left]. }
    exists out'. cbn [sort_asc]. rewrite Hout. simpl.
    split_and!; [done| | |by apply Hsort'].
    + by rewrite Hperm', Hperm.
    + intros k. rewrite Hkeys'. unfold with_key in *.
      by rewrite !filter_cons, Hkeys.
Qed.

(** For keys that compare with each other, the final sort returns a
    permutation of its input, larger keys first, equal keys in their
    input order. *)
Lemma sorted_reverse_spec (l : list A) :
  (∀ x y, x ∈ l → y ∈ l → same_kind (keyf x) (keyf y)) →
  ∃ out, sorted_reverse keyf l = Ok out
    ∧ out ≡ₚ l
    ∧ (∀ k, with_key keyf k out = with_key keyf k l)
    ∧ StronglySorted (descending keyf) out.
Proof.
  intros Hkind. destruct (sort_asc_spec (reverse l))
    as (out & Hout & Hperm & Hkeys & Hsort).
  { intros x y Hx Hy. apply Hkind; by apply elem_of_reverse. }
  exists (reverse out). unfold sorted_reverse. rewrite Hout.
  split_and!; [done| | |].
  - by rewrite reverse_Permutation, Hperm, reverse_Permutation.
  - intros k. unfold with_key in *.
    by rewrite filter_reverse, Hkeys, filter_reverse, reverse_involutive.
  - by apply StronglySorted_reverse in Hsort.
Qed.
End SortFacts.

(** What the final sort does with the records the curation loop hands
    over, whose suitability is a [str]: the order is that of the strings. *)
Lemma rank_of_curated (jobs : list job) :
  Forall (fun d => ∃ s, suitability d = Some (KStr s)) jobs →
  ∃ out, rank jobs = Ok out
    ∧ out ≡ₚ jobs
    ∧ (∀ k, with_key sort_key k out = with_key sort_key k jobs)
    ∧ StronglySorted (descending sort_key) out.
Proof.
  intros Hall. apply sorted_reverse_spec. intros x y Hx Hy.
  rewrite Forall_forall in Hall.
  destruct (Hall x Hx) as [s Hs], (Hall y Hy) as [t Ht].
  unfold sort_key. by rewrite Hs, Ht.
Qed.

(** When the suitability values present are integers, a record without
    one is ranked with the key 2: no record scored below 2 comes before it
    and no record scored above 2 comes after it. *)
Theorem rank_default_suitability (jobs : list job) :
  Forall (fun d => ∀ s, suitability d ≠ Some (KStr s)) jobs →
  ∃ out, rank jobs = Ok out
    ∧ out ≡ₚ jobs
    ∧ ∀ pre d post,
        out = pre ++ d :: post → suitability d = None →
        sort_key d = KInt 2
        ∧ (∀ e n, e ∈ pre → suitability e = Some (KInt n) → 2 <= n)
        ∧ (∀ e n, e ∈ post → suitability e = Some (KInt n) → n <= 2).
Proof.
  intros Hall. rewrite Forall_forall in Hall.
  assert (Hint : ∀ d, d ∈ jobs → ∃ n, sort_key d = KInt n).
  { intros d Hd. specialize (Hall d Hd). unfold sort_key.
    destruct (suitability d) as [[n|s]|]; simpl; [by eauto| |by eauto].
    by destruct (Hall s). }
  destruct (sorted_reverse_spec sort_key jobs)
    as (out & Hout & Hperm & _ & Hsort).
  { intros x y Hx Hy.
    destruct (Hint x Hx) as [m ->], (Hint y Hy) as [n ->]. done. }
  exists out. split_and!; [done|done|].
  intros pre d post -> Hd.
  assert (Hkey : sort_key d = KInt 2) by (unfold sort_key; by rewrite Hd).
  apply StronglySorted_app in Hsort as (Hpre & _ & Hpost).
  apply StronglySorted_inv in Hpost as [_ Hpost].
  rewrite Forall_forall in Hpost.
  split_and!; [done| |].
  - intros e n He Hn. specialize (Hpre e d He (list_elem_of_here _ _)).
    unfold descending, key_le, sort_key in Hpre.
    rewrite Hd, Hn in Hpre. simpl in Hpre. injection Hpre as Hpre.
    apply Z.ltb_ge in Hpre. done.
  - intros e n He Hn. specialize (Hpost e He).
    unfold descending, key_le, sort_key in Hpost.
    rewrite Hd, Hn in Hpost. simpl in Hpost. injection Hpost as Hpost.
    apply Z.ltb_ge in Hpost. done.
Qed.

Lemma rank_default_suitability_witness :
  ∃ out,
    rank [set_suitability (KInt 1) Demo.job1; Demo.job2;
          set_suitability (KInt 3) Demo.job1] = Ok out
    ∧ out ≡ₚ [set_suitability (KInt 1) Demo.job1; Demo.job2;
              set_suitability (KInt 3) Demo.job1]
    ∧ ∀ pre d post,
        out = pre ++ d :: post → suitability d = None →
        sort_key d = KInt 2
        ∧ (∀ e n, e ∈ pre → suitability e = Some (KInt n) → 2 <= n)
        ∧ (∀ e n, e ∈ post → suitability e = Some (KInt n) → n <= 2).
Proof.
  apply (rank_default_suitability
           [set_suitability (KInt 1) Demo.job1; Demo.job2;
            set_suitability (KInt 3) Demo.job1]).
  repeat constructor; simpl; discriminate.
Defined.

Example rank_default_between :
  rank [set_suitability (KInt 1) Demo.job1; Demo.job2;
        set_suitability (KInt 3) Demo.job1]
  = Ok [set_suitability (KInt 3) Demo.job1; Demo.job2;
        set_suitability (KInt 1) Demo.job1].
Proof. vm_compute. reflexivity. Qed.


(** C1.  Two candidates scored 10 and 9, retrieved in that order: the
    report lists the one scored 9 first, because the final sort compares
    the stored strings. *)
Theorem rank_compares_strings :
  ∃ out w',
    main Demo.ext [Demo.job1; Demo.job2] Demo.profile
      (Demo.start [Demo.answer "10"; Demo.answer "9"]) = (Ok out, w')
    ∧ map id_ out = [of_string "2"; of_string "1"]
    ∧ map suitability out
      = [Some (KStr (of_string "9")); Some (KStr (of_string "10"))].
Proof. eexists _, _. split; [vm_compute; reflexivity|]. done. Qed.

(** ** Retriever *)

Section RetrieverFacts.
Context (E : External).

Lemma for_each_cons {S A} (x : A) (xs : list A) (body : A → sprog S unit)
    (s : S) :
  for_each (x :: xs) body s
  = match body x s with
    | (Ok _, s') => for_each xs body s'
    | (Raise e, s') => (Raise e, s')
    end.
Proof. done. Qed.

Lemma for_each_app {S A} (xs ys : list A) (body : A → sprog S unit)
    (s s' : S) :
  for_each xs body s = (Ok tt, s') →
  for_each (xs ++ ys) body s = for_each ys body s'.
Proof.
  revert s. induction xs as [|x xs IH]; intros s.
  - by intros [= ->].
  - simpl app. rewrite !for_each_cons.
    destruct (body x s) as [[[]|e] s1]; [|done]. apply IH.
Qed.

Lemma for_each_raise {S A} (x : A) (xs : list A) (body : A → sprog S unit)
    (s s' : S) (e : exn) :
  body x s = (Raise e, s') → for_each (x :: xs) body s = (Raise e, s').
Proof. intros H. by rewrite for_each_cons, H. Qed.

(** A job in another language is passed over. *)
Lemma other_language_skipped (d : job) (rest : list job) (lang : pystr)
    (w w' : world E) :
  detect E (description d) w = (Ok lang, w') → lang ≠ LANG →
  embed_jobs E (d :: rest) w = embed_jobs E rest w'.
Proof.
  intros Hdet Hlang. unfold embed_jobs. rewrite for_each_cons.
  unfold embed_job, sbind at 1. rewrite Hdet.
  by rewrite decide_False.
Qed.

(** A failure of [COLLECTION.add] is caught in [store_embeddings]:
    indexing goes on with the next job. *)
Lemma store_failure_skipped (d : job) (rest : list job)
    (v : vector E) (w w1 w2 w3 : world E) (e : exn) :
  detect E (description d) w = (Ok LANG, w1) →
  create_embedding E (title d ++ description d ++ company d) w1
  = (Ok v, w2) →
  collection_add E (id_ d) v (description d) w2 = (Raise e, w3) →
  embed_jobs E (d :: rest) w = embed_jobs E rest w3.
Proof.
  intros Hdet Hemb Hadd. unfold embed_jobs. rewrite for_each_cons.
  unfold embed_job, sbind at 1. rewrite Hdet.
  rewrite decide_True by done. unfold sbind at 1. rewrite Hemb.
  unfold sbind at 1, store_embeddings. by rewrite Hadd.
Qed.

Lemma main_embed_raise (jobs : list job) (profile : pystr)
    (w w' : world E) (e : exn) :
  embed_jobs E (remove_exact_duplicates sorted_items jobs) w
  = (Raise e, w') →
  main E jobs profile w = (Raise e, w').
Proof. intros H. unfold main, sbind at 1. by rewrite H. Qed.

(** C3.  When language detection raises for a job, that job is neither
    embedded nor indexed, but it is not skipped either: the exception
    leaves [embed_jobs] in the world the failed call left, the jobs after
    it are not visited, and the run ends with that exception. *)
Theorem detect_failure_aborts (pre post : list job) (d : job)
    (w w1 w2 : world E) (e : exn) :
  embed_jobs E pre w = (Ok tt, w1) →
  detect E (description d) w1 = (Raise e, w2) →
  embed_jobs E (pre ++ d :: post) w = (Raise e, w2)
  ∧ ∀ jobs profile,
      remove_exact_duplicates sorted_items jobs = pre ++ d :: post →
      main E jobs profile w = (Raise e, w2).
Proof.
  intros Hpre Hdet.
  assert (Hrun : embed_jobs E (pre ++ d :: post) w = (Raise e, w2)).
  { unfold embed_jobs in *. rewrite (for_each_app _ _ _ _ _ Hpre).
    apply for_each_raise. unfold embed_job, sbind. by rewrite Hdet. }
  split; [done|]. intros jobs profile Hjobs.
  apply main_embed_raise. by rewrite Hjobs.
Qed.

(** C4.  A service error of the embedding call is fatal wherever it
    happens: raised for a job during indexing, it leaves [embed_jobs],
    the job is not indexed, the jobs after it are not visited and the run
    ends; raised for the profile, the run ends as well. *)
Theorem embedding_failure_aborts (pre post : list job) (d : job)
    (w w1 w2 w3 : world E) (e : exn) :
  embed_jobs E pre w = (Ok tt, w1) →
  detect E (description d) w1 = (Ok LANG, w2) →
  create_embedding E (title d ++ description d ++ company d) w2
  = (Raise e, w3) →
  embed_jobs E (pre ++ d :: post) w = (Raise e, w3)
  ∧ (∀ jobs profile,
       remove_exact_duplicates sorted_items jobs = pre ++ d :: post →
       main E jobs profile w = (Raise e, w3))
  ∧ (∀ jobs profile w4 w5 e',
       embed_jobs E (remove_exact_duplicates sorted_items jobs) w
       = (Ok tt, w4) →
       create_embedding E profile w4 = (Raise e', w5) →
       main E jobs profile w = (Raise e', w5)).
Proof.
  intros Hpre Hdet Hemb.
  assert (Hrun : embed_jobs E (pre ++ d :: post) w = (Raise e, w3)).
  { unfold embed_jobs in *. rewrite (for_each_app _ _ _ _ _ Hpre).
    apply for_each_raise. unfold embed_job, sbind at 1. rewrite Hdet.
    rewrite decide_True by done. unfold sbind at 1. by rewrite Hemb. }
  split_and!; [done| |].
  - intros jobs profile Hjobs. apply main_embed_raise. by rewrite Hjobs.
  - intros jobs profile w4 w5 e' Hjobs Hprofile.
    unfold main, sbind at 1. rewrite Hjobs.
    unfold sbind at 1. by rewrite Hprofile.
Qed.
End RetrieverFacts.

Lemma detect_failure_aborts_witness :
  let w := Demo.start [] in
  let w1 := (embed_jobs Demo.ext [Demo.job1] w).2 in
  let w2 := (Demo.detect_language [] w1).2 in
  embed_jobs Demo.ext ([Demo.job1] ++ Demo.job_blank :: [Demo.job2]) w
  = (Raise LangDetectException, w2)
  ∧ ∀ jobs profile,
      remove_exact_duplicates sorted_items jobs
      = [Demo.job1] ++ Demo.job_blank :: [Demo.job2] →
      main Demo.ext jobs profile w = (Raise LangDetectException, w2).
Proof.
  apply (detect_failure_aborts Demo.ext [Demo.job1] [Demo.job2]
           Demo.job_blank (Demo.start [])
           (embed_jobs Demo.ext [Demo.job1] (Demo.start [])).2);
    vm_compute; reflexivity.
Defined.

(** A job with nothing to classify, followed by an English one: the run
    ends with the detector's exception and the second job is never
    indexed. *)
Lemma detect_failure_is_fatal :
  ∃ w',
    main Demo.ext [Demo.job_blank; Demo.job2] Demo.profile
      (Demo.start [Demo.answer "4"])
    = (Raise LangDetectException, w')
    ∧ embed_jobs Demo.ext [Demo.job_blank; Demo.job2]
        (Demo.start [Demo.answer "4"])
      = (Raise LangDetectException, w')
    ∧ Demo.added w' = [].
Proof. eexists. split_and!; vm_compute; reflexivity. Qed.

Lemma embedding_failure_aborts_witness :
  let w := Demo.start [] in
  let w1 := (embed_jobs Demo.ext [Demo.job1] w).2 in
  let w2 := (Demo.detect_language (description Demo.job_down) w1).2 in
  let w3 := (Demo.embeddings
               (preprocess (title Demo.job_down ++ description Demo.job_down
                            ++ company Demo.job_down)) w2).2 in
  embed_jobs Demo.ext ([Demo.job1] ++ Demo.job_down :: [Demo.job2]) w
  = (Raise ResponseError, w3)
  ∧ (∀ jobs profile,
       remove_exact_duplicates sorted_items jobs
       = [Demo.job1] ++ Demo.job_down :: [Demo.job2] →
       main Demo.ext jobs profile w = (Raise ResponseError, w3))
  ∧ (∀ jobs profile w4 w5 e',
       embed_jobs Demo.ext (remove_exact_duplicates sorted_items jobs) w
       = (Ok tt, w4) →
       create_embedding Demo.ext profile w4 = (Raise e', w5) →
       main Demo.ext jobs profile w = (Raise e', w5)).
Proof.
  apply (embedding_failure_aborts Demo.ext [Demo.job1] [Demo.job2]
           Demo.job_down (Demo.start [])
           (embed_jobs Demo.ext [Demo.job1] (Demo.start [])).2
           (Demo.detect_language (description Demo.job_down)
              (embed_jobs Demo.ext [Demo.job1] (Demo.start [])).2).2);
    vm_compute; reflexivity.
Defined.

(** A job whose embedding call fails, followed by one that would embed: the
    run ends with the service error and the second job is never indexed. *)
Lemma job_embedding_failure_is_fatal :
  ∃ w',
    main Demo.ext [Demo.job_down; Demo.job2] Demo.profile
      (Demo.start [Demo.answer "4"])
    = (Raise ResponseError, w')
    ∧ embed_jobs Demo.ext [Demo.job_down; Demo.job2]
        (Demo.start [Demo.answer "4"])
      = (Raise ResponseError, w')
    ∧ Demo.added w' = [].
Proof. eexists. split_and!; vm_compute; reflexivity. Qed.

(** The end-to-end scenario of the specification: scores 4 and 0 and one
    job in another language give a report of one job. *)
Example end_to_end :
  ∃ out w',
    main Demo.ext
      [Demo.job1; Demo.plain_job "5" "Le travail"; Demo.job2] Demo.profile
      (Demo.start [Demo.answer "4"; Demo.answer "0"])
    = (Ok out, w')
    ∧ map id_ out = [of_string "1"]
    ∧ Demo.added w' = [of_string "1"; of_string "2"].
Proof. eexists _, _. split_and!; vm_compute; reflexivity. Qed.

(** * Further properties of the script *)

(** ** The final sort, continued *)

Lemma same_kind_refl (a : key) : same_kind a a.
Proof. by destruct a. Qed.

Lemma same_kind_sym (a b : key) : same_kind a b → same_kind b a.
Proof. by destruct a, b. Qed.

Lemma same_kind_trans (a b c : key) :
  same_kind a b → same_kind b c → same_kind a c.
Proof. by destruct a, b, c. Qed.

Lemma py_lt_ok_kind (a b : key) (c : bool) :
  py_lt a b = Ok c → same_kind a b.
Proof. by destruct a, b. Qed.

Lemma py_lt_raise (a b : key) (e : exn) :
  py_lt a b = Raise e → e = TypeError ∧ ¬ same_kind a b.
Proof. destruct a, b; simpl; try done; intros [= <-]; by auto. Qed.

Section SortErrors.
Context {A : Type} (keyf : A → key).

Lemma insert_sorted_ok_kind (x : A) (l out : list A) :
  insert_sorted keyf x l = Ok out →
  match l with
  | [] => True
  | y :: _ => same_kind (keyf y) (keyf x)
  end.
Proof.
  destruct l as [|y rest]; [done|]. cbn [insert_sorted].
  destruct (py_lt (keyf y) (keyf x)) as [c|e] eqn:Hlt; [|done].
  intros _. by eapply py_lt_ok_kind.
Qed.

Lemma insert_sorted_raise (x : A) (l : list A) (e : exn) :
  insert_sorted keyf x l = Raise e → e = TypeError.
Proof.
  induction l as [|y rest IH]; [done|]. cbn [insert_sorted].
  destruct (py_lt (keyf y) (keyf x)) as [c|e'] eqn:Hlt; simpl.
  - destruct c; [|done].
    destruct (insert_sorted keyf x rest); simpl; [done|].
    intros [= <-]. by apply IH.
  - intros [= <-]. by apply py_lt_raise in Hlt as [-> _].
Qed.

Lemma sort_asc_raise (l : list A) (e : exn) :
  sort_asc keyf l = Raise e → e = TypeError.
Proof.
  induction l as [|x rest IH]; [done|]. cbn [sort_asc].
  destruct (sort_asc keyf rest) as [out0|e0]; simpl.
  - apply insert_sorted_raise.
  - intros [= <-]. by apply IH.
Qed.

(** A sort that returns has compared keys of one kind only. *)
Lemma sort_asc_ok (l out : list A) :
  sort_asc keyf l = Ok out →
  out ≡ₚ l ∧ ∀ x y, x ∈ l → y ∈ l → same_kind (keyf x) (keyf y).
Proof.
  revert out. induction l as [|x rest IH]; intros out.
  - intros [= <-]. split; [done|]. intros x y Hx. by apply elem_of_nil in Hx.
  - cbn [sort_asc]. destruct (sort_asc keyf rest) as [out0|e0]; [|done].
    simpl. intros Hins. destruct (IH out0 eq_refl) as [Hperm Hkind].
    assert (Hx : ∀ y, y ∈ rest → same_kind (keyf y) (keyf x)).
    { pose proof (insert_sorted_ok_kind _ _ _ Hins) as Hhead.
      destruct out0 as [|z out0].
      - intros y Hy. rewrite <- Hperm in Hy. by apply elem_of_nil in Hy.
      - assert (Hz : z ∈ rest) by (rewrite <- Hperm; by left).
        intros y Hy. eapply same_kind_trans; [|exact Hhead].
        by apply Hkind. }
    split.
    + destruct (insert_sorted_spec keyf x out0) as (out' & Hout' & Hp & _).
      { apply Forall_forall. intros y Hy. apply Hx. by rewrite <- Hperm. }
      rewrite Hins in Hout'. injection Hout' as <-. by rewrite Hp, Hperm.
    + intros y z Hy Hz.
      apply elem_of_cons in Hy as [->|Hy], Hz as [->|Hz].
      * apply same_kind_refl.
      * by apply same_kind_sym, Hx.
      * by apply Hx.
      * by apply Hkind.
Qed.

Lemma sorted_reverse_ok (l out : list A) :
  sorted_reverse keyf l = Ok out →
  ∀ x y, x ∈ l → y ∈ l → same_kind (keyf x) (keyf y).
Proof.
  unfold sorted_reverse.
  destruct (sort_asc keyf (reverse l)) as [out0|e] eqn:Hs; [|done].
  intros _ x y Hx Hy. apply (sort_asc_ok _ _ Hs); by apply elem_of_reverse.
Qed.

Lemma sorted_reverse_raise (l : list A) (e : exn) :
  sorted_reverse keyf l = Raise e → e = TypeError.
Proof.
  unfold sorted_reverse.
  destruct (sort_asc keyf (reverse l)) as [out0|e0] eqn:Hs; [done|].
  intros [= <-]. by eapply sort_asc_raise.
Qed.
End SortErrors.


(** X1.  The final sort returns exactly when the keys of its input compare
    pairwise, and then with a permutation of its input; two records whose
    keys do not compare (a stored [str] next to an [int] or to a missing
    suitability) make it raise [TypeError], the only exception it can
    raise. *)
Theorem rank_raises_on_mixed_keys (jobs : list job) :
  ((∃ out, rank jobs = Ok out ∧ out ≡ₚ jobs)
   ↔ ∀ x y, x ∈ jobs → y ∈ jobs → same_kind (sort_key x) (sort_key y))
  ∧ (∀ x y, x ∈ jobs → y ∈ jobs → ¬ same_kind (sort_key x) (sort_key y) →
       rank jobs = Raise TypeError)
  ∧ (∀ e, rank jobs = Raise e → e = TypeError).
Proof.
  split_and!.
  - split.
    + intros (out & Hout & _). by apply (sorted_reverse_ok sort_key jobs out).
    + intros Hkind.
      destruct (sorted_reverse_spec sort_key jobs Hkind)
        as (out & Hout & Hperm & _).
      by exists out.
  - intros x y Hx Hy Hkind. destruct (rank jobs) as [out|e] eqn:Hr.
    + destruct Hkind. by apply (sorted_reverse_ok sort_key jobs out).
    + f_equal. by apply (sorted_reverse_raise sort_key jobs).
  - intros e. apply sorted_reverse_raise.
Qed.

Example rank_str_next_to_default :
  rank [set_suitability (KStr (of_string "4")) Demo.job1; Demo.job2]
  = Raise TypeError
  ∧ ∃ out, rank [set_suitability (KStr (of_string "4")) Demo.job1;
                 set_suitability (KStr (of_string "5")) Demo.job2] = Ok out.
Proof. split; [vm_compute; reflexivity|eexists; vm_compute; reflexivity]. Qed.

Lemma StronglySorted_weaken {A} (R R' : relation A) (l : list A) :
  (∀ x y, x ∈ l → y ∈ l → R x y → R' x y) →
  StronglySorted R l → StronglySorted R' l.
Proof.
  intros Himpl Hs. induction Hs as [|a l Hs IH Hall]; [constructor|].
  constructor.
  - apply IH. intros x y Hx Hy. apply Himpl; by right.
  - rewrite Forall_forall in *. intros y Hy.
    apply Himpl; [by left|by right|by apply Hall].
Qed.

Lemma sort_key_str (d : job) (s : pystr) :
  sort_key d = KStr s ↔ suitability d = Some (KStr s).
Proof.
  unfold sort_key. destruct (suitability d) as [k|]; simpl; [|done].
  split; [by intros ->|by intros [= ->]].
Qed.

(** X2.  On records whose suitability is a [str], as the curation loop
    leaves them, the final sort returns a permutation of its input in which
    no record is followed by one whose string is larger by code points, and
    records with the same string keep their input order. *)
Theorem rank_curated_sorted_stable (jobs : list job) :
  Forall (fun d => ∃ s, suitability d = Some (KStr s)) jobs →
  ∃ out, rank jobs = Ok out
    ∧ out ≡ₚ jobs
    ∧ StronglySorted
        (fun a b => ∃ s t, suitability a = Some (KStr s)
                           ∧ suitability b = Some (KStr t)
                           ∧ str_lt s t = false) out
    ∧ ∀ s, filter (fun d => suitability d = Some (KStr s)) out
           = filter (fun d => suitability d = Some (KStr s)) jobs.
Proof.
  intros Hall. destruct (rank_of_curated jobs Hall)
    as (out & Hout & Hperm & Hkeys & Hsort).
  rewrite Forall_forall in Hall.
  exists out. split_and!; [done|done| |].
  - eapply StronglySorted_weaken; [|exact Hsort].
    intros a b Ha Hb. rewrite Hperm in Ha, Hb.
    destruct (Hall a Ha) as [s Hs], (Hall b Hb) as [t Ht].
    unfold descending, key_le, sort_key. rewrite Hs, Ht. simpl.
    intros [= Hlt]. by exists s, t.
  - intros s. specialize (Hkeys (KStr s)). unfold with_key in Hkeys.
    rewrite (list_filter_iff _ (fun d => sort_key d = KStr s) out),
            (list_filter_iff _ (fun d => sort_key d = KStr s) jobs);
      [exact Hkeys| |]; intros d; by rewrite sort_key_str.
Qed.

Lemma rank_curated_sorted_stable_witness :
  ∃ out,
    rank [set_suitability (KStr (of_string "3")) Demo.job1;
          set_suitability (KStr (of_string "5")) Demo.job2;
          set_suitability (KStr (of_string "3")) Demo.job2] = Ok out
    ∧ out = [set_suitability (KStr (of_string "5")) Demo.job2;
             set_suitability (KStr (of_string "3")) Demo.job1;
             set_suitability (KStr (of_string "3")) Demo.job2].
Proof.
  destruct (rank_curated_sorted_stable
              [set_suitability (KStr (of_string "3")) Demo.job1;
               set_suitability (KStr (of_string "5")) Demo.job2;
               set_suitability (KStr (of_string "3")) Demo.job2])
    as (out & Hout & _).
  - repeat constructor; simpl; by eexists.
  - exists out. split; [exact Hout|].
    vm_compute in Hout. by injection Hout as <-.
Defined.

Lemma str_lt_digits (m n : Z) :
  0 <= m <= 9 → 0 <= n <= 9 →
  str_lt (str_of_int m) (str_of_int n) = (m <? n).
Proof.
  intros Hm Hn.
  assert (Hm' : m = 0 ∨ m = 1 ∨ m = 2 ∨ m = 3 ∨ m = 4 ∨ m = 5 ∨ m = 6
                ∨ m = 7 ∨ m = 8 ∨ m = 9) by lia.
  assert (Hn' : n = 0 ∨ n = 1 ∨ n = 2 ∨ n = 3 ∨ n = 4 ∨ n = 5 ∨ n = 6
                ∨ n = 7 ∨ n = 8 ∨ n = 9) by lia.
  clear Hm Hn.
  repeat (destruct Hm' as [->|Hm']); try subst m;
    repeat (destruct Hn' as [->|Hn']); try subst n; reflexivity.
Qed.

(** X3.  When every stored suitability is the decimal form of a score
    between 0 and 9 (the prompt asks for 0 to 5), the order of the strings
    is the order of the numbers: the final sort returns its input reordered
    with no score followed by a larger one. *)
Theorem rank_single_digit_numeric (score : job → Z) (jobs : list job) :
  Forall (fun d => 0 <= score d <= 9
                   ∧ suitability d = Some (KStr (str_of_int (score d))))
         jobs →
  ∃ out, rank jobs = Ok out
    ∧ out ≡ₚ jobs
    ∧ StronglySorted (fun a b => score b <= score a) out.
Proof.
  intros Hall. destruct (rank_of_curated jobs)
    as (out & Hout & Hperm & _ & Hsort).
  { eapply Forall_impl; [exact Hall|]. intros d [_ Hd]. by eexists. }
  rewrite Forall_forall in Hall.
  exists out. split_and!; [done|done|].
  eapply StronglySorted_weaken; [|exact Hsort].
  intros a b Ha Hb. rewrite Hperm in Ha, Hb.
  destruct (Hall a Ha) as [Hra Hsa], (Hall b Hb) as [Hrb Hsb].
  unfold descending, key_le, sort_key. rewrite Hsa, Hsb. simpl.
  rewrite str_lt_digits by done. intros [= Hlt].
  by apply Z.ltb_ge in Hlt.
Qed.

Lemma rank_single_digit_numeric_witness :
  ∃ out,
    rank [set_suitability (KStr (str_of_int 3)) Demo.job1;
          set_suitability (KStr (str_of_int 5)) Demo.job2] = Ok out
    ∧ out ≡ₚ [set_suitability (KStr (str_of_int 3)) Demo.job1;
              set_suitability (KStr (str_of_int 5)) Demo.job2]
    ∧ StronglySorted
        (fun a b => (if decide (id_ b = of_string "1") then 3 else 5)
                    <= (if decide (id_ a = of_string "1") then 3 else 5))
        out.
Proof.
  apply (rank_single_digit_numeric
           (fun d => if decide (id_ d = of_string "1") then 3 else 5)).
  repeat constructor; vm_compute; congruence.
Defined.

(** ** Text normalisation, continued *)

Lemma split_from_chars (cur text w : pystr) (c : N) :
  w ∈ split_from cur text → c ∈ w →
  (c ∈ cur ∨ c ∈ text) ∧ py_isspace c = false ∨ c ∈ cur.
Proof.
  revert cur. induction text as [|x rest IH]; intros cur Hw Hc.
  - simpl in Hw. destruct cur; [by apply elem_of_nil in Hw|].
    apply list_elem_of_singleton in Hw as ->. by right.
  - destruct (py_isspace x) eqn:Hx.
    + rewrite split_from_gap in Hw by done.
      apply elem_of_app in Hw as [Hw|Hw].
      * destruct cur; [by apply elem_of_nil in Hw|].
        apply list_elem_of_singleton in Hw as ->. by right.
      * destruct (IH [] Hw Hc) as [[[Hn|Hin] Hs]|Hn];
          [by apply elem_of_nil in Hn| |by apply elem_of_nil in Hn].
        left. split; [|done]. right. by right.
    + rewrite split_from_word in Hw by done.
      destruct (IH _ Hw Hc) as [[[Hin|Hin] Hs]|Hin].
      * apply elem_of_app in Hin as [Hin|Hin]; [by right|].
        apply list_elem_of_singleton in Hin as ->.
        left. split; [|done]. right. by left.
      * left. split; [|done]. right. by right.
      * apply elem_of_app in Hin as [Hin|Hin]; [by right|].
        apply list_elem_of_singleton in Hin as ->.
        left. split; [|done]. right. by left.
Qed.

Lemma split_from_nonempty_words (cur text : pystr) :
  Forall (fun w => w ≠ []) (split_from cur text).
Proof.
  revert cur. induction text as [|x rest IH]; intros cur.
  - simpl. destruct cur; by repeat constructor.
  - destruct (py_isspace x) eqn:Hx.
    + rewrite split_from_gap by done. apply Forall_app. split; [|apply IH].
      destruct cur; by repeat constructor.
    + rewrite split_from_word by done. apply IH.
Qed.

(** The words of [text.split()]: not empty, free of whitespace, made of
    characters of [text]. *)
Lemma py_split_words (text w : pystr) :
  w ∈ py_split text →
  w ≠ [] ∧ ∀ c, c ∈ w → c ∈ text ∧ py_isspace c = false.
Proof.
  intros Hw. split.
  - pose proof (split_from_nonempty_words [] text) as Hne.
    rewrite Forall_forall in Hne. by apply Hne.
  - intros c Hc. destruct (split_from_chars [] text w c Hw Hc)
      as [[[Hn|Hin] Hs]|Hn]; try by apply elem_of_nil in Hn. done.
Qed.

Lemma split_from_app (cur w rest : pystr) :
  (∀ c, c ∈ w → py_isspace c = false) →
  split_from cur (w ++ rest) = split_from (cur ++ w) rest.
Proof.
  revert cur. induction w as [|x w IH]; intros cur Hw.
  - by rewrite app_nil_r.
  - simpl app. rewrite split_from_word by (apply Hw; by left).
    rewrite IH by (intros c Hc; apply Hw; by right).
    by rewrite <- app_assoc.
Qed.

Lemma py_split_join (ws : list pystr) :
  (∀ w, w ∈ ws → w ≠ [] ∧ ∀ c, c ∈ w → py_isspace c = false) →
  py_split (py_join [32%N] ws) = ws.
Proof.
  unfold py_split. induction ws as [|w ws IH]; intros Hws; [done|].
  destruct (Hws w) as [Hne Hw]; [by left|].
  rewrite py_join_cons. destruct ws as [|w' ws].
  - rewrite <- (app_nil_r w) at 1. rewrite split_from_app by done.
    simpl. by destruct w.
  - rewrite split_from_app by done. cbn [app].
    rewrite split_from_gap by done. rewrite IH.
    + by destruct w.
    + intros v Hv. apply Hws. by right.
Qed.

Lemma py_join_chars (ws : list pystr) (c : N) :
  c ∈ py_join [32%N] ws → c = 32%N ∨ ∃ w, w ∈ ws ∧ c ∈ w.
Proof.
  induction ws as [|w ws IH]; [intros H; by apply elem_of_nil in H|].
  rewrite py_join_cons. destruct ws as [|w' ws].
  - intros Hc. right. exists w. split; [by left|done].
  - rewrite !elem_of_app. intros [Hc|[Hc|Hc]].
    + right. exists w. split; [by left|done].
    + left. by apply list_elem_of_singleton in Hc.
    + destruct (IH Hc) as [->|(v & Hv & Hcv)]; [by left|].
      right. exists v. split; [by right|done].
Qed.

Lemma py_split_empty (text : pystr) :
  py_split text = [] ↔ ∀ c, c ∈ text → py_isspace c = true.
Proof.
  unfold py_split. induction text as [|x rest IH].
  - split; [intros _ c Hc; by apply elem_of_nil in Hc|done].
  - destruct (py_isspace x) eqn:Hx.
    + rewrite split_from_gap by done. simpl. rewrite IH. split.
      * intros H c Hc. apply elem_of_cons in Hc as [->|Hc]; auto.
      * intros H c Hc. apply H. by right.
    + rewrite split_from_word by done. split.
      * intros H. by destruct (split_from_nonempty [x] rest).
      * intros H. specialize (H x (list_elem_of_here _ _)). congruence.
Qed.

Lemma strip_non_ascii_ascii (text : pystr) :
  (∀ c, c ∈ text → (c <= 127)%N) → strip_non_ascii text = text.
Proof.
  unfold strip_non_ascii, pystr.
  induction text as [|c l IH]; intros Hall; [done|].
  rewrite filter_cons, decide_True by (apply Hall; by left).
  f_equal. apply IH. intros c' Hc'. apply Hall. by right.
Qed.

(** X4.  The text [create_embedding] sends is in normal form: it holds
    only code points up to 0x7F, its only whitespace is the single space,
    normalising it again changes nothing, and it is empty exactly when the
    input has no ASCII character other than whitespace. *)
Theorem preprocess_normal_form (text : pystr) :
  preprocess (preprocess text) = preprocess text
  ∧ (∀ c, c ∈ preprocess text →
          (c <= 127)%N ∧ (py_isspace c = true → c = 32%N))
  ∧ (preprocess text = [] ↔
     ∀ c, c ∈ text → (c <= 127)%N → py_isspace c = true).
Proof.
  unfold preprocess. change (of_string " ") with [32%N].
  set (ws := py_split (strip_non_ascii text)).
  assert (Hws : ∀ w, w ∈ ws →
            w ≠ [] ∧ ∀ c, c ∈ w → (c <= 127)%N ∧ py_isspace c = false).
  { intros w Hw. destruct (py_split_words _ _ Hw) as [Hne Hc].
    split; [done|]. intros c Hcw. destruct (Hc c Hcw) as [Hin Hs].
    split; [|done]. unfold strip_non_ascii in Hin.
    by apply list_elem_of_filter in Hin as [? _]. }
  assert (Hchars : ∀ c, c ∈ py_join [32%N] ws →
            (c <= 127)%N ∧ (py_isspace c = true → c = 32%N)).
  { intros c Hc. destruct (py_join_chars _ _ Hc) as [->|(w & Hw & Hcw)].
    - split; [lia|done].
    - destruct (Hws w Hw) as [_ Hg]. destruct (Hg c Hcw) as [? Hs].
      split; [done|]. congruence. }
  split_and!; [|done|].
  - assert (Hfil : strip_non_ascii (py_join [32%N] ws) = py_join [32%N] ws).
    { apply strip_non_ascii_ascii. intros c Hc. by apply Hchars. }
    rewrite Hfil, py_split_join; [done|].
    intros w Hw. destruct (Hws w Hw) as [Hne Hg]. split; [done|].
    intros c Hc. by apply Hg.
  - transitivity (ws = []).
    + destruct ws as [|w ws'] eqn:Hw; [done|]. split; [|done].
      intros Hj. destruct (Hws w) as [Hne _]; [by left|].
      rewrite py_join_cons in Hj. destruct ws'; [done|].
      by destruct w.
    + subst ws. rewrite py_split_empty. unfold strip_non_ascii. split.
      * intros H c Hc Hle. apply H. by apply list_elem_of_filter.
      * intros H c Hc. apply list_elem_of_filter in Hc as [? ?]. by apply H.
Qed.

(** ** JSON extraction, continued *)

(** X5.  What extraction hands to [json.loads] is a contiguous piece of
    the response that is either empty or runs from an opening brace to a
    closing brace; extracting from it again returns it unchanged. *)
Theorem extract_json_shape (text : pystr) :
  (extract_json text = []
   ∨ ∃ mid, extract_json text = lbrace :: mid ++ [rbrace])
  ∧ (∃ pre post, text = pre ++ extract_json text ++ post)
  ∧ extract_json (extract_json text) = extract_json text.
Proof.
  assert (Hcases :
    extract_json text = []
    ∨ ∃ pre mid post, text = pre ++ lbrace :: mid ++ rbrace :: post
                      ∧ extract_json text = lbrace :: mid ++ [rbrace]).
  { unfold extract_json.
    destruct (strip_prefix_some text) as [->|(pre & rest & -> & ->)];
      [by left|].
    destruct (decide (rbrace ∈ rest)) as [Hin|Hn].
    - apply list_elem_of_split_r in Hin as (mid & post & -> & Hpost).
      right. exists pre, mid, post. split; [done|].
      change (lbrace :: mid ++ rbrace :: post)
        with ((lbrace :: mid) ++ rbrace :: post).
      by rewrite strip_suffix_app.
    - left. apply strip_suffix_none. by apply not_elem_of_cons. }
  destruct Hcases as [->|(pre & mid & post & -> & ->)].
  - split_and!; [by left| |done]. by exists [], text.
  - split_and!.
    + right. by exists mid.
    + exists pre, post. simpl. by rewrite <- !app_assoc.
    + apply (extract_json_wrapped [] mid []); apply not_elem_of_nil.
Qed.

(** ** The curation loop, continued *)

Lemma find_job_None (jobs : list job) (Id : pystr) :
  find_job jobs Id = None ↔ ∀ d, d ∈ jobs → id_ d ≠ Id.
Proof.
  induction jobs as [|x jobs IH]; simpl.
  - split; [intros _ d Hd; by apply elem_of_nil in Hd|done].
  - case_decide as Hid.
    + split; [done|]. intros H. destruct (H x); [by left|done].
    + rewrite fmap_None, IH. split.
      * intros H d Hd. apply elem_of_cons in Hd as [->|Hd]; auto.
      * intros H d Hd. apply H. by right.
Qed.

Section CuratorErrors.
Context (E : External).

(** X6.  An identifier that no record of [jobs_list] carries ends the run:
    the lookup yields [None], subscripting it raises [TypeError] outside
    the [try], before any call to the language model. *)
Theorem unknown_id_is_fatal (profile Id : pystr) (rest : list pystr)
    (st : curation) (w : world E) :
  (∀ d, d ∈ jobs_list st → id_ d ≠ Id) →
  curate E profile Id st w = (Raise TypeError, w)
  ∧ curation_loop E profile (Id :: rest) st w = (Raise TypeError, w).
Proof.
  intros Hid. apply find_job_None in Hid.
  assert (Hc : curate E profile Id st w = (Raise TypeError, w)).
  { unfold curate. by rewrite Hid. }
  split; [done|]. cbn [curation_loop]. unfold sbind. by rewrite Hc.
Qed.

(** X7.  A failure of the generation call is not caught: it is made
    outside the [try], so the exception ends the loop at that candidate,
    whatever candidates remain. *)
Theorem generate_failure_is_fatal (profile Id : pystr) (rest : list pystr)
    (st : curation) (w w' : world E) (i : nat) (d : job) (e : exn) :
  find_job (jobs_list st) Id = Some (i, d) →
  ollama_generate E (build_prompt profile d) w = (Raise e, w') →
  curate E profile Id st w = (Raise e, w')
  ∧ curation_loop E profile (Id :: rest) st w = (Raise e, w').
Proof.
  intros Hfind Hgen.
  assert (Hc : curate E profile Id st w = (Raise e, w')).
  { unfold curate, sbind. by rewrite Hfind, Hgen. }
  split; [done|]. cbn [curation_loop]. unfold sbind. by rewrite Hc.
Qed.

(** X8.  A response that fails before its [Job_summary] is read (it does
    not parse, has no [Suitability], has one that does not coerce, scores 0
    or less, or has no [Job_summary]) leaves every record and [final_jobs]
    exactly as they were. *)
Theorem rejected_early_no_trace (profile Id : pystr) (st : curation)
    (w w' : world E) (i : nat) (d : job) (raw : pystr) :
  find_job (jobs_list st) Id = Some (i, d) →
  ollama_generate E (build_prompt profile d) w = (Ok raw, w') →
  ¬ (∃ response score n job_summary,
       json_loads E (extract_json raw) = Ok response
       ∧ getitem response (of_string "Suitability") = Ok score
       ∧ py_int E score = Ok n ∧ 0 < n
       ∧ getitem response (of_string "Job_summary") = Ok job_summary) →
  curate E profile Id st w = (Ok st, w').
Proof.
  intros Hfind Hgen Hno.
  rewrite (curate_run E profile Id st w w' i d raw Hfind Hgen).
  f_equal. f_equal.
  unfold curate_response, sbind, slift, smodify, sret.
  destruct (json_loads E (extract_json raw)) as [response|?] eqn:Hload;
    [|done].
  destruct (getitem response (of_string "Suitability")) as [score|?]
    eqn:Hscore; [|done].
  destruct (py_int E score) as [n|?] eqn:Hint; [|done].
  destruct (0 <? n) eqn:Hpos; [|done].
  destruct (getitem response (of_string "Job_summary")) as [js|?] eqn:Hjs;
    [|done].
  destruct Hno. exists response, score, n, js.
  apply Z.ltb_lt in Hpos. by rewrite Hscore.
Qed.
End CuratorErrors.

Lemma unknown_id_is_fatal_witness :
  curate Demo.ext Demo.profile (of_string "9") (Curation [Demo.job1] [])
    (Demo.start [Demo.answer "4"])
  = (Raise TypeError, Demo.start [Demo.answer "4"])
  ∧ curation_loop Demo.ext Demo.profile [of_string "9"; of_string "1"]
      (Curation [Demo.job1] []) (Demo.start [Demo.answer "4"])
    = (Raise TypeError, Demo.start [Demo.answer "4"]).
Proof.
  apply (unknown_id_is_fatal Demo.ext Demo.profile (of_string "9")
           [of_string "1"] (Curation [Demo.job1] [])).
  intros d Hd. apply list_elem_of_singleton in Hd as ->. vm_compute.
  discriminate.
Defined.

Lemma generate_failure_is_fatal_witness :
  let w' := (Demo.generate (build_prompt Demo.profile Demo.job1)
               (Demo.start [])).2 in
  curate Demo.ext Demo.profile (of_string "1") (Curation [Demo.job1] [])
    (Demo.start [])
  = (Raise ConnectionError, w')
  ∧ curation_loop Demo.ext Demo.profile [of_string "1"; of_string "2"]
      (Curation [Demo.job1] []) (Demo.start [])
    = (Raise ConnectionError, w').
Proof.
  apply (generate_failure_is_fatal Demo.ext Demo.profile (of_string "1")
           [of_string "2"] (Curation [Demo.job1] []) (Demo.start []) _
           0%nat Demo.job1 ConnectionError); vm_compute; reflexivity.
Defined.

Lemma rejected_early_no_trace_witness :
  let w' := (Demo.generate (build_prompt Demo.profile Demo.job1)
               (Demo.start [Demo.answer "0"])).2 in
  curate Demo.ext Demo.profile (of_string "1") (Curation [Demo.job1] [])
    (Demo.start [Demo.answer "0"])
  = (Ok (Curation [Demo.job1] []), w').
Proof.
  apply (rejected_early_no_trace Demo.ext Demo.profile (of_string "1")
           (Curation [Demo.job1] []) (Demo.start [Demo.answer "0"]) _
           0%nat Demo.job1 (Demo.answer "0")); try (vm_compute; reflexivity).
  intros (response & score & n & js & Hload & Hscore & Hint & Hpos & _).
  vm_compute in Hload. injection Hload as <-.
  vm_compute in Hscore. injection Hscore as <-.
  vm_compute in Hint. injection Hint as <-. lia.
Defined.

Lemma same_base_refl (d : job) : same_base d d.
Proof. by repeat split. Qed.

Lemma same_base_trans (a b c : job) :
  same_base a b → same_base b c → same_base a c.
Proof.
  unfold same_base. intros (?&?&?&?&?&?&?&?) (?&?&?&?&?&?&?&?).
  split_and!; congruence.
Qed.

Lemma same_base_update (i : nat) (f : job → job) (jobs jobs' : list job) :
  (∀ d, same_base d (f d)) →
  Forall2 same_base jobs jobs' →
  Forall2 same_base jobs (alter f i jobs').
Proof.
  intros Hf H. apply Forall2_alter_r; [done|].
  intros x y _ _ Hxy. eapply same_base_trans; [exact Hxy|apply Hf].
Qed.

Section CuratorFrame.
Context (E : External).

(** One pass of the loop body that returns: which record it worked on and
    what it may have changed. *)
Lemma curate_frame (profile Id : pystr) (st st' : curation)
    (w w' : world E) :
  curate E profile Id st w = (Ok st', w') →
  ∃ i d, find_job (jobs_list st) Id = Some (i, d)
    ∧ Forall2 same_base (jobs_list st) (jobs_list st')
    ∧ (∀ j, j ≠ i → jobs_list st' !! j = jobs_list st !! j)
    ∧ (final_jobs st' = final_jobs st
       ∨ final_jobs st' = final_jobs st ++ [i]).
Proof.
  unfold curate.
  destruct (find_job (jobs_list st) Id) as [[i d]|] eqn:Hfind; [|done].
  unfold sbind, sret, try_except.
  destruct (ollama_generate E (build_prompt profile d) w) as [[raw|e] w1];
    [|done].
  intros [= <- <-]. exists i, d. split; [done|].
  assert (Hrefl : Forall2 same_base (jobs_list st) (jobs_list st)).
  { apply Forall2_same_length_lookup. split; [done|].
    intros j x y Hx Hy. rewrite Hx in Hy. injection Hy as <-.
    apply same_base_refl. }
  destruct (curate_response_cases E i raw st)
    as [(r & sc & n & js & ms & _ & _ & _ & _ & _ & _ & ->)
       |(_ & Hfin & [->| [js ->]])]; simpl.
  - split_and!; [|by intros j Hj; rewrite !list_lookup_alter_ne|by right].
    repeat (apply same_base_update; [by intros []|]). done.
  - by split_and!; [| |left].
  - split_and!; [|by intros j Hj; rewrite list_lookup_alter_ne|by left].
    apply same_base_update; [by intros []|done].
Qed.

Lemma find_job_elem (jobs : list job) (Id : pystr) (i : nat) (d : job) :
  find_job jobs Id = Some (i, d) → (i < length jobs)%nat.
Proof.
  intros H. apply find_job_lookup in H as [H _].
  by apply lookup_lt_Some in H.
Qed.

(** X9.  A curation loop that runs to its end has kept the list of records
    in place: same length, same CSV fields at every position, and a record
    whose identifier was not among the candidates is untouched.  It has
    only appended to [final_jobs], at most one position per candidate, each
    one a position of [jobs_list]. *)
Theorem curation_keeps_records (profile : pystr) (ids : list pystr)
    (st st' : curation) (w w' : world E) :
  curation_loop E profile ids st w = (Ok st', w') →
  Forall2 same_base (jobs_list st) (jobs_list st')
  ∧ (∀ j d, jobs_list st !! j = Some d → id_ d ∉ ids →
            jobs_list st' !! j = Some d)
  ∧ (∃ added, final_jobs st' = final_jobs st ++ added
              ∧ (length added <= length ids)%nat
              ∧ ∀ i, i ∈ added → (i < length (jobs_list st))%nat).
Proof.
  revert st w. induction ids as [|Id rest IH]; intros st w.
  - intros [= <- _]. split_and!.
    + apply Forall2_same_length_lookup. split; [done|].
      intros j x y Hx Hy. rewrite Hx in Hy. injection Hy as <-.
      apply same_base_refl.
    + done.
    + exists []. rewrite app_nil_r. split_and!; [done|done|].
      intros i Hi. by apply elem_of_nil in Hi.
  - cbn [curation_loop]. unfold sbind at 1.
    destruct (curate E profile Id st w) as [[st1|e] w1] eqn:Hc; [|done].
    intros Hloop. destruct (IH _ _ Hloop) as (Hbase & Hother & Hfinal).
    destruct (curate_frame _ _ _ _ _ _ Hc)
      as (i & d & Hfind & Hbase1 & Hother1 & Hfin1).
    pose proof (Forall2_length _ _ _ Hbase1) as Hlen.
    split_and!.
    + eapply Forall2_trans; [|exact Hbase1|exact Hbase].
      intros x y z. apply same_base_trans.
    + intros j x Hx Hid. apply not_elem_of_cons in Hid as [Hne Hid].
      apply Hother; [|done]. rewrite Hother1; [done|].
      intros ->. apply find_job_lookup in Hfind as [Hi Hd].
      rewrite Hx in Hi. injection Hi as <-. done.
    + destruct Hfinal as (added & Hadd & Hle & Hpos).
      destruct Hfin1 as [Hfin1|Hfin1]; rewrite Hfin1 in Hadd.
      * exists added. split_and!; [done|simpl; lia|].
        intros k Hk. rewrite Hlen. by apply Hpos.
      * exists (i :: added). rewrite <- app_assoc in Hadd.
        split_and!; [done|simpl; lia|].
        intros k Hk. apply elem_of_cons in Hk as [->|Hk].
        -- by eapply find_job_elem.
        -- rewrite Hlen. by apply Hpos.
Qed.
End CuratorFrame.

Lemma curation_keeps_records_witness :
  let st := Curation [Demo.job1; Demo.job2] [] in
  let st' := curated Demo.ext 0 (PInt 4) (PStr (of_string "a"))
               (PStr (of_string "b")) st in
  Forall2 same_base (jobs_list st) (jobs_list st')
  ∧ (∀ j d, jobs_list st !! j = Some d → id_ d ∉ [of_string "1"] →
            jobs_list st' !! j = Some d)
  ∧ (∃ added, final_jobs st' = final_jobs st ++ added
              ∧ (length added <= length [of_string "1"])%nat
              ∧ ∀ i, i ∈ added → (i < length (jobs_list st))%nat).
Proof.
  apply (curation_keeps_records Demo.ext Demo.profile [of_string "1"]
           (Curation [Demo.job1; Demo.job2] []) _
           (Demo.start [Demo.answer "4"])
           (Demo.generate (build_prompt Demo.profile Demo.job1)
              (Demo.start [Demo.answer "4"])).2).
  vm_compute. reflexivity.
Defined.

(** ** Indexing, continued *)

Section RetrieverSkips.
Context (E : External).

(** X10.  [store_embeddings] never raises.  When the collection refuses an
    entry it returns [False], which [embed_jobs] ignores: indexing goes on
    with the next job from the world the failed call left. *)
Theorem store_failure_is_skipped (d : job) (rest : list job)
    (v : vector E) (w w1 w2 w3 : world E) (e : exn) :
  detect E (description d) w = (Ok LANG, w1) →
  create_embedding E (title d ++ description d ++ company d) w1
  = (Ok v, w2) →
  collection_add E (id_ d) v (description d) w2 = (Raise e, w3) →
  store_embeddings E (id_ d) v (description d) w2 = (Ok false, w3)
  ∧ embed_jobs E (d :: rest) w = embed_jobs E rest w3
  ∧ ∀ i v' doc w0, ∃ b w0', store_embeddings E i v' doc w0 = (Ok b, w0').
Proof.
  intros Hdet Hemb Hadd. split_and!.
  - unfold store_embeddings. by rewrite Hadd.
  - by eapply store_failure_skipped.
  - intros i v' doc w0. unfold store_embeddings.
    destruct (collection_add E i v' doc w0) as [[[]|e'] w0']; by eauto.
Qed.

(** X11.  A job whose description is detected as another language is
    passed over after the detection call: no embedding is requested and
    nothing is added to the collection for it. *)
Theorem foreign_job_not_indexed (d : job) (rest : list job) (lang : pystr)
    (w w' : world E) :
  detect E (description d) w = (Ok lang, w') → lang ≠ LANG →
  embed_job E d w = (Ok tt, w')
  ∧ embed_jobs E (d :: rest) w = embed_jobs E rest w'.
Proof.
  intros Hdet Hlang. split; [|by eapply other_language_skipped].
  unfold embed_job, sbind. rewrite Hdet. by rewrite decide_False.
Qed.
End RetrieverSkips.

Lemma store_failure_is_skipped_witness :
  let d := Strict.job1_again in
  let w := (embed_jobs Strict.ext [Demo.job1] (Demo.start [])).2 in
  let w1 := (Demo.detect_language (description d) w).2 in
  let w2 := (Demo.embeddings
               (preprocess (title d ++ description d ++ company d)) w1).2 in
  store_embeddings Strict.ext (id_ d) 29%nat (description d) w2
  = (Ok false, w2)
  ∧ embed_jobs Strict.ext [d; Demo.job2] w
    = embed_jobs Strict.ext [Demo.job2] w2
  ∧ ∀ i v' doc w0,
      ∃ b w0', store_embeddings Strict.ext i v' doc w0 = (Ok b, w0').
Proof.
  apply (store_failure_is_skipped Strict.ext Strict.job1_again [Demo.job2]
           29%nat (embed_jobs Strict.ext [Demo.job1] (Demo.start [])).2
           (Demo.detect_language (description Strict.job1_again)
              (embed_jobs Strict.ext [Demo.job1] (Demo.start [])).2).2
           _ _ ValueError); vm_compute; reflexivity.
Defined.

Lemma foreign_job_not_indexed_witness :
  let d := Demo.plain_job "5" "Le travail" in
  let w' := (Demo.detect_language (description d) (Demo.start [])).2 in
  embed_job Demo.ext d (Demo.start []) = (Ok tt, w')
  ∧ embed_jobs Demo.ext [d; Demo.job2] (Demo.start [])
    = embed_jobs Demo.ext [Demo.job2] w'.
Proof.
  apply (foreign_job_not_indexed Demo.ext (Demo.plain_job "5" "Le travail")
           [Demo.job2] (of_string "fr") (Demo.start [])).
  - vm_compute. reflexivity.
  - vm_compute. discriminate.
Defined.

(** ** Reading the jobs and removing duplicates, continued *)

Lemma str_of_int_inj (m n : Z) : str_of_int m = str_of_int n → m = n.
Proof.
  unfold str_of_int. intros H. apply of_string_inj in H.
  apply DecimalZ.to_int_inj.
  assert (Hback : ∀ z, NilZero.int_of_string
                         (NilZero.string_of_int (Z.to_int z))
                       = Some (Z.to_int z)).
  { intros z. apply NilZero.isi; destruct z; simpl; try discriminate;
      intros [= Hp]; by apply Unsigned.to_uint_nonnil in Hp. }
  apply (f_equal NilZero.int_of_string) in H.
  rewrite !Hback in H. by injection H.
Qed.

Lemma sorted_items_id (d d' : job) :
  sorted_items d = sorted_items d' → id_ d = id_ d'.
Proof. unfold sorted_items. simpl. intros H. by simplify_eq. Qed.

Lemma jobs_from_lookup (start : Z) (rows : list (gmap pystr pystr))
    (k : nat) :
  jobs_from start rows !! k = make_job (start + Z.of_nat k) <$> rows !! k.
Proof.
  revert start k. induction rows as [|row rest IH]; intros start k; [done|].
  destruct k as [|k]; simpl.
  - by rewrite Z.add_0_r.
  - rewrite IH. do 2 f_equal. lia.
Qed.

Lemma jobs_from_ids (start : Z) (rows : list (gmap pystr pystr)) (d : job) :
  d ∈ jobs_from start rows →
  ∃ k, id_ d = str_of_int (start + Z.of_nat k) ∧ fresh d.
Proof.
  intros Hd. apply list_elem_of_lookup in Hd as [k Hk].
  rewrite jobs_from_lookup in Hk.
  destruct (rows !! k) as [row|]; [|done]. injection Hk as <-.
  by exists k.
Qed.

Lemma jobs_from_find (start : Z) (rows : list (gmap pystr pystr))
    (k : nat) (row : gmap pystr pystr) :
  rows !! k = Some row →
  find_job (jobs_from start rows) (str_of_int (start + Z.of_nat k))
  = Some (k, make_job (start + Z.of_nat k) row).
Proof.
  revert start k. induction rows as [|r rest IH]; intros start k; [done|].
  change (jobs_from start (r :: rest))
    with (make_job start r :: jobs_from (start + 1) rest).
  cbn [find_job]. change (id_ (make_job start r)) with (str_of_int start).
  destruct k as [|k].
  - intros [= ->]. rewrite Z.add_0_r. by rewrite decide_True.
  - intros Hk. rewrite decide_False
      by (intros Heq; apply str_of_int_inj in Heq; lia).
    replace (start + Z.of_nat (S k)) with ((start + 1) + Z.of_nat k) by lia.
    by rewrite (IH _ _ Hk).
Qed.

Lemma jobs_from_NoDup_ids (start : Z) (rows : list (gmap pystr pystr)) :
  NoDup (map id_ (jobs_from start rows)).
Proof.
  revert start. induction rows as [|row rest IH]; intros start;
    [constructor|].
  simpl. apply NoDup_cons. split; [|apply IH].
  intros Hin. apply list_elem_of_fmap in Hin as (d & Heq & Hd).
  apply jobs_from_ids in Hd as (k & Hk & _).
  rewrite Hk in Heq. apply str_of_int_inj in Heq. lia.
Qed.

Lemma NoDup_sorted_items (jobs : list job) :
  NoDup (map id_ jobs) → NoDup (map sorted_items jobs).
Proof.
  induction jobs as [|d l IH]; [constructor|]. simpl.
  rewrite !NoDup_cons. intros [Hd Hnd]. split; [|by apply IH].
  intros Hin. apply Hd. apply list_elem_of_fmap in Hin as (d' & Heq & Hd').
  apply sorted_items_id in Heq. rewrite Heq.
  apply list_elem_of_fmap. by exists d'.
Qed.

(** X12.  On rows whose cells are all strings, [process_jobs_csv] keeps
    one record per row, numbers the rows from 1 in file order, and a record
    is found again under its number: looking up the decimal form of [k + 1]
    the way the curation loop does yields position [k] and the record built
    from row [k], which carries that number as its id and no enrichment. *)
Theorem process_jobs_csv_lookup (rows : list (gmap pystr pystr)) (k : nat)
    (row : gmap pystr pystr) :
  rows !! k = Some row →
  length (process_jobs_csv rows) = length rows
  ∧ process_jobs_csv rows !! k = Some (make_job (Z.of_nat k + 1) row)
  ∧ find_job (process_jobs_csv rows) (str_of_int (Z.of_nat k + 1))
    = Some (k, make_job (Z.of_nat k + 1) row)
  ∧ id_ (make_job (Z.of_nat k + 1) row) = str_of_int (Z.of_nat k + 1)
  ∧ fresh (make_job (Z.of_nat k + 1) row)
  ∧ (∀ j, find_job (process_jobs_csv rows) (str_of_int (Z.of_nat j + 1))
          = None ↔ (length rows <= j)%nat).
Proof.
  intros Hk. unfold process_jobs_csv.
  assert (Hlen : length (jobs_from 1 rows) = length rows).
  { apply Nat.le_antisymm; apply Nat.nlt_ge; intros Hlt.
    + apply lookup_lt_is_Some in Hlt as [x Hx].
      rewrite jobs_from_lookup in Hx. apply fmap_Some in Hx as (r & Hr & _).
      apply lookup_lt_Some in Hr. lia.
    + apply lookup_lt_is_Some in Hlt as [r Hr].
      pose proof (jobs_from_lookup 1 rows (length (jobs_from 1 rows))) as Hl.
      rewrite Hr in Hl. simpl in Hl. apply lookup_lt_Some in Hl. lia. }
  split_and!.
  - done.
  - rewrite jobs_from_lookup, Hk. simpl. do 2 f_equal. lia.
  - rewrite (Z.add_comm _ 1). by apply jobs_from_find.
  - done.
  - done.
  - intros j. split.
    + intros Hnone. apply Nat.nlt_ge. intros Hlt.
      apply lookup_lt_is_Some in Hlt as [r Hr].
      rewrite (Z.add_comm _ 1), (jobs_from_find 1 rows j r Hr) in Hnone.
      done.
    + intros Hge. apply find_job_None. intros d Hd.
      apply list_elem_of_lookup in Hd as [i Hi].
      rewrite jobs_from_lookup in Hi.
      destruct (rows !! i) as [r|] eqn:Hr; [|done]. injection Hi as <-.
      apply lookup_lt_Some in Hr.
      intros Heq. apply str_of_int_inj in Heq. lia.
Qed.


(** X13.  Every record of [process_jobs_csv] carries its own number, so no
    two of them are equal: the exact-duplicate pass that the script runs
    on them returns the list unchanged, two rows with the same content
    included. *)
Theorem process_jobs_csv_no_duplicates (rows : list (gmap pystr pystr)) :
  remove_exact_duplicates sorted_items (process_jobs_csv rows)
  = process_jobs_csv rows
  ∧ NoDup (map id_ (process_jobs_csv rows)).
Proof.
  split; [|apply jobs_from_NoDup_ids].
  apply dedup_fixed, NoDup_sorted_items, jobs_from_NoDup_ids.
Qed.

Lemma process_jobs_csv_lookup_witness :
  let row : gmap pystr pystr := {[ of_string "title" := of_string "Analyst" ]} in
  let rows : list (gmap pystr pystr) :=
    [{[ of_string "title" := of_string "Engineer" ]}; row] in
  rows !! 1%nat = Some row
  ∧ process_jobs_csv rows !! 1%nat = Some (make_job (Z.of_nat 1 + 1) row)
  ∧ find_job (process_jobs_csv rows) (str_of_int (Z.of_nat 1 + 1))
    = Some (1%nat, make_job (Z.of_nat 1 + 1) row).
Proof.
  intros row rows.
  assert (Hk : rows !! 1%nat = Some row) by reflexivity.
  split; [exact Hk|].
  pose proof (process_jobs_csv_lookup rows 1 row Hk) as (_ & H2 & H3 & _).
  split; [exact H2|exact H3].
Defined.

Lemma sorted_items_inj (d d' : job) :
  fresh d → fresh d' → sorted_items d = sorted_items d' → d = d'.
Proof.
  destruct d, d'. unfold fresh, sorted_items. simpl.
  intros (-> & -> & ->) (-> & -> & ->). simpl. intros H. by simplify_eq.
Qed.

Section DedupCompose.
Context {A R K : Type} `{EqDecision R} `{EqDecision K}.
Context (repr : A → R) (key : A → K).

(** Removing duplicates by a key after removing them by a finer form gives
    what removing by the key alone gives. *)
Lemma dedup_coarser (lst : list A) :
  (∀ x y, repr x = repr y → key x = key y) →
  remove_duplicates key (remove_exact_duplicates repr lst)
  = remove_duplicates key lst.
Proof.
  intros Hfine.
  change (@remove_duplicates A K _) with (@remove_exact_duplicates A K _).
  assert (Hkeys : ∀ l k, k ∈ map key (remove_exact_duplicates repr l)
                         ↔ k ∈ map key l).
  { intros l k. rewrite !list_elem_of_fmap. split.
    - intros (y & -> & Hy). exists y. split; [done|].
      eapply elem_of_sublist; [done|apply dedup_sublist].
    - intros (x & -> & Hx).
      assert (Hr : repr x ∈ map repr l)
        by (apply list_elem_of_fmap; eauto).
      apply (proj2 (dedup_reprs repr l (repr x))) in Hr.
      apply list_elem_of_fmap in Hr as (y & Heq & Hy).
      exists y. split; [|done]. by apply Hfine. }
  induction lst as [|d p IH] using rev_ind; [done|].
  rewrite (dedup_snoc repr), (dedup_snoc key).
  destruct (decide (repr d ∈ map repr p)) as [Hin|Hin].
  - rewrite IH. rewrite decide_True; [done|].
    apply list_elem_of_fmap in Hin as (x & Heq & Hx).
    apply list_elem_of_fmap. exists x. split; [|done]. by apply Hfine.
  - rewrite (dedup_snoc key), IH.
    destruct (decide (key d ∈ map key p)) as [Hk|Hk].
    + rewrite decide_True; [done|]. by apply Hkeys.
    + rewrite decide_False; [done|]. by rewrite Hkeys.
Qed.

Lemma dedup_constant_key (lst : list A) (c : K) :
  (∀ d, d ∈ lst → key d = c) → remove_duplicates key lst = take 1 lst.
Proof.
  change (@remove_duplicates A K _) with (@remove_exact_duplicates A K _).
  induction lst as [|d p IH] using rev_ind; intros Hc; [done|].
  rewrite dedup_snoc.
  assert (Hp : ∀ x, x ∈ p → key x = c).
  { intros x Hx. apply Hc, elem_of_app. by left. }
  destruct p as [|x p]; [done|].
  rewrite decide_True.
  - by rewrite IH.
  - rewrite (Hc d) by (apply elem_of_app; right; by left).
    rewrite <- (Hp x) by by left. simpl. by left.
Qed.
End DedupCompose.

(** X14.  On records as [process_jobs_csv] builds them, exact-duplicate
    removal keeps one copy of every distinct record and nothing else: the
    result has no repeated record, holds the same records as the input, and
    is the input itself when that has no repetition. *)
Theorem exact_duplicates_keep_every_record (jobs : list job) :
  Forall fresh jobs →
  let out := remove_exact_duplicates sorted_items jobs in
  NoDup out
  ∧ (∀ d, d ∈ out ↔ d ∈ jobs)
  ∧ (NoDup jobs → out = jobs).
Proof.
  intros Hfresh. simpl. rewrite Forall_forall in Hfresh.
  pose proof (dedup_sublist sorted_items jobs) as Hsub.
  split_and!.
  - eapply NoDup_fmap_1, dedup_NoDup.
  - intros d. split; [intros Hd; by eapply elem_of_sublist|].
    intros Hd.
    assert (Hr : sorted_items d ∈ map sorted_items jobs)
      by (apply list_elem_of_fmap; eauto).
    apply (proj2 (dedup_reprs sorted_items jobs _)) in Hr.
    apply list_elem_of_fmap in Hr as (y & Heq & Hy).
    rewrite (sorted_items_inj d y); [done| | |done]; apply Hfresh; [done|].
    by eapply elem_of_sublist.
  - intros Hnd. apply dedup_fixed.
    apply NoDup_fmap_2_strong; [|done].
    intros x y Hx Hy. apply sorted_items_inj; by apply Hfresh.
Qed.

Lemma exact_duplicates_keep_every_record_witness :
  let jobs := [Demo.job1; Demo.job2; Demo.job1] in
  let out := remove_exact_duplicates sorted_items jobs in
  NoDup out
  ∧ (∀ d, d ∈ out ↔ d ∈ jobs)
  ∧ (NoDup jobs → out = jobs).
Proof.
  apply (exact_duplicates_keep_every_record
           [Demo.job1; Demo.job2; Demo.job1]).
  repeat constructor.
Defined.

(** X15.  [remove_duplicates] on such records keeps, in input order, the
    first record for each value of [d.get(key)]; it gives the same result
    whether or not exact duplicates were removed before; and when no record
    has the key, every record counts as a duplicate of the first. *)
Theorem remove_duplicates_by_key (key : pystr) (jobs : list job) :
  Forall fresh jobs →
  let get := fun d => job_get d key in
  let out := remove_duplicates get jobs in
  sublist out jobs
  ∧ NoDup (map get out)
  ∧ (∀ x, x ∈ out →
       ∃ a, first_index get (get x) jobs = Some a ∧ jobs !! a = Some x)
  ∧ (∀ x, x ∈ jobs → ∃ y, y ∈ out ∧ get y = get x)
  ∧ remove_duplicates get out = out
  ∧ remove_duplicates get (remove_exact_duplicates sorted_items jobs) = out
  ∧ ((∀ d, d ∈ jobs → get d = None) → out = take 1 jobs).
Proof.
  intros _. simpl. set (get := fun d => job_get d key).
  split_and!.
  - apply (dedup_sublist get).
  - apply (dedup_NoDup get).
  - apply (dedup_first get).
  - intros x Hx.
    assert (Hr : get x ∈ map get jobs) by (apply list_elem_of_fmap; eauto).
    apply (proj2 (dedup_reprs get jobs _)) in Hr.
    apply list_elem_of_fmap in Hr as (y & ? & ?). eauto.
  - apply (dedup_fixed get), (dedup_NoDup get).
  - apply dedup_coarser. intros x y Hxy. unfold get, job_get. by rewrite Hxy.
  - apply dedup_constant_key.
Qed.

Lemma remove_duplicates_by_key_witness :
  remove_duplicates (fun d => job_get d (of_string "company"))
    [Demo.job1; Demo.job2]
  = [Demo.job1]
  ∧ remove_duplicates (fun d => job_get d (of_string "salary"))
      [Demo.job1; Demo.job2]
    = [Demo.job1].
Proof.
  destruct (remove_duplicates_by_key (of_string "salary")
              [Demo.job1; Demo.job2]) as (_ & _ & _ & _ & _ & _ & Hnone).
  - repeat constructor.
  - split; [vm_compute; reflexivity|]. apply Hnone.
    intros d Hd. apply elem_of_cons in Hd as [->|Hd]; [reflexivity|].
    apply list_elem_of_singleton in Hd as ->. reflexivity.
Defined.

(** ** The report *)

Section ReportFacts.
Context (E : External).

Lemma render_item_ok (d : job) :
  is_Some (summary d) → is_Some (match_ d) → is_Some (suitability d) →
  ∃ item, render_item E d = Ok item.
Proof.
  intros [js Hjs] [ms Hms] [s Hs]. unfold render_item.
  rewrite Hjs, Hms, Hs. by eexists.
Qed.

Lemma render_item_raise (d : job) :
  summary d = None ∨ match_ d = None ∨ suitability d = None →
  render_item E d = Raise KeyError.
Proof.
  unfold render_item.
  intros [H|[H|H]]; rewrite H; by repeat case_match.
Qed.

Lemma render_items_ok (jobs : list job) :
  Forall (fun d => is_Some (summary d) ∧ is_Some (match_ d)
                   ∧ is_Some (suitability d)) jobs →
  ∃ items, render_items E jobs = Ok items
    ∧ Forall2 (fun d item => render_item E d = Ok item) jobs items.
Proof.
  induction 1 as [|d rest (Hs & Hm & Hk) _ (items & Hitems & Hall)].
  - exists []. by split.
  - destruct (render_item_ok d Hs Hm Hk) as [item Hitem].
    exists (item :: items). cbn [render_items].
    rewrite Hitem, Hitems. split; [done|]. by constructor.
Qed.

Lemma render_items_raise (jobs : list job) (d : job) :
  d ∈ jobs →
  summary d = None ∨ match_ d = None ∨ suitability d = None →
  render_items E jobs = Raise KeyError.
Proof.
  intros Hd Hmiss. induction jobs as [|x rest IH];
    [by apply elem_of_nil in Hd|].
  cbn [render_items].
  destruct (render_item E x) as [item|e] eqn:Hx.
  - apply elem_of_cons in Hd as [->|Hd].
    + by rewrite render_item_raise in Hx.
    + simpl. by rewrite IH.
  - simpl. f_equal. unfold render_item in Hx.
    repeat case_match; congruence.
Qed.

(** X16.  The report needs the three enrichment keys on every record: one
    record without [summary], [match] or [suitability], anywhere in the
    list, makes [generate_job_listings] raise [KeyError], so that no page
    is produced, not even for the complete records before it. *)
Theorem report_needs_enrichment (jobs : list job) (d : job) :
  d ∈ jobs →
  summary d = None ∨ match_ d = None ∨ suitability d = None →
  generate_job_listings E jobs = Raise KeyError.
Proof.
  intros Hd Hmiss. unfold generate_job_listings.
  by rewrite (render_items_raise jobs d).
Qed.

(** The page for records that all carry the three keys. *)
Lemma report_of_enriched (jobs : list job) :
  Forall (fun d => is_Some (summary d) ∧ is_Some (match_ d)
                   ∧ is_Some (suitability d)) jobs →
  ∃ items,
    Forall2 (fun d item => render_item E d = Ok item) jobs items
    ∧ generate_job_listings E jobs
      = Ok (html_head ++ py_join item_separator items ++ html_tail).
Proof.
  intros Hall. destruct (render_items_ok jobs Hall) as (items & Hitems & H2).
  exists items. unfold generate_job_listings. by rewrite Hitems.
Qed.
End ReportFacts.

Lemma report_needs_enrichment_witness :
  generate_job_listings Demo.ext
    [Demo.job1; set_summary (PStr (of_string "a")) Demo.job2]
  = Raise KeyError.
Proof.
  apply (report_needs_enrichment Demo.ext
           [Demo.job1; set_summary (PStr (of_string "a")) Demo.job2]
           (set_summary (PStr (of_string "a")) Demo.job2)).
  - right. by left.
  - right. by left.
Defined.

(** ** The whole run *)

Section RunFacts.
Context (E : External).

Lemma curation_loop_same_base (profile : pystr) (ids : list pystr)
    (st st' : curation) (w w' : world E) :
  curation_loop E profile ids st w = (Ok st', w') →
  Forall2 same_base (jobs_list st) (jobs_list st').
Proof.
  revert st w. induction ids as [|Id rest IH]; intros st w.
  - intros [= <- _]. apply Forall2_same_length_lookup. split; [done|].
    intros j x y Hx Hy. rewrite Hx in Hy. injection Hy as <-.
    apply same_base_refl.
  - cbn [curation_loop]. unfold sbind at 1.
    destruct (curate E profile Id st w) as [[st1|e] w1] eqn:Hc; [|done].
    intros Hloop.
    destruct (curate_frame E _ _ _ _ _ _ Hc) as (_ & _ & _ & Hbase & _).
    eapply Forall2_trans; [|exact Hbase|exact (IH _ _ Hloop)].
    intros x y z. apply same_base_trans.
Qed.

(** X17.  Whenever the script gets as far as its report, every record in
    it is one of the input records with its CSV fields intact and the three
    enrichment keys set, no record is followed by one with a larger
    suitability string, and [generate_job_listings] renders the list
    without raising. *)
Theorem main_output (jobs : list job) (profile : pystr) (out : list job)
    (w w' : world E) :
  main E jobs profile w = (Ok out, w') →
  Forall (fun d => enriched E d ∧ ∃ d0, d0 ∈ jobs ∧ same_base d0 d) out
  ∧ StronglySorted
      (fun a b => ∃ s t, suitability a = Some (KStr s)
                         ∧ suitability b = Some (KStr t)
                         ∧ str_lt s t = false) out
  ∧ ∃ html, generate_job_listings E out = Ok html.
Proof.
  unfold main. set (jl := remove_exact_duplicates sorted_items jobs).
  unfold sbind at 1.
  destruct (embed_jobs E jl w) as [[[]|?] w1]; [|done].
  unfold sbind at 1.
  destruct (create_embedding E profile w1) as [[v|?] w2]; [|done].
  unfold sbind at 1.
  destruct (query_embedding E v N_RESULTS w2) as [[ids|?] w3]; [|done].
  unfold sbind at 1.
  destruct (curation_loop E profile ids (Curation jl []) w3)
    as [[st'|?] w4] eqn:Hloop; [|done].
  unfold slift. intros [= Hrank <-].
  pose proof (curation_loop_same_base _ _ _ _ _ _ Hloop) as Hbase.
  apply all_enriched_loop in Hloop;
    [|intros i Hi; by apply elem_of_nil in Hi].
  destruct (deref_all_enriched E st' Hloop) as [_ Hall].
  assert (Hfrom : ∀ d, d ∈ deref st' → ∃ d0, d0 ∈ jobs ∧ same_base d0 d).
  { intros d Hd. unfold deref in Hd.
    apply list_elem_of_omap in Hd as (i & _ & Hi).
    destruct (Forall2_lookup_r _ _ _ _ _ Hbase Hi) as (d0 & Hd0 & Hsame).
    exists d0. split; [|done].
    eapply elem_of_sublist; [|apply (dedup_sublist sorted_items jobs)].
    apply list_elem_of_lookup. by exists i. }
  destruct (rank_of_curated (deref st')) as (out' & Hout & Hperm & _ & Hs).
  { apply Forall_forall. intros d Hd.
    destruct (Hall d Hd) as (_ & _ & v' & n & Hv & _). by eexists. }
  rewrite Hrank in Hout. injection Hout as <-.
  assert (Hin : ∀ d, d ∈ out → enriched E d
                               ∧ ∃ d0, d0 ∈ jobs ∧ same_base d0 d).
  { intros d Hd. rewrite Hperm in Hd. split; [by apply Hall|by apply Hfrom]. }
  split_and!.
  - by apply Forall_forall.
  - eapply StronglySorted_weaken; [|exact Hs].
    intros a b Ha Hb.
    destruct (Hin a Ha) as [(_ & _ & va & na & Hsa & _) _].
    destruct (Hin b Hb) as [(_ & _ & vb & nb & Hsb & _) _].
    unfold descending, key_le, sort_key. rewrite Hsa, Hsb. simpl.
    intros [= Hlt]. by eexists _, _.
  - destruct (report_of_enriched E out) as (items & _ & Hhtml);
      [|by eexists].
    apply Forall_forall. intros d Hd.
    destruct (Hin d Hd) as [(Hs1 & Hs2 & v' & n & Hv & _) _].
    split_and!; [done|done|by eexists].
Qed.
End RunFacts.

Lemma main_output_witness :
  let out := (main Demo.ext [Demo.job1; Demo.job2] Demo.profile
                (Demo.start [Demo.answer "3"; Demo.answer "4"])).1 in
  ∃ l, out = Ok l
    ∧ Forall (fun d => enriched Demo.ext d
                       ∧ ∃ d0, d0 ∈ [Demo.job1; Demo.job2] ∧ same_base d0 d) l
    ∧ map id_ l = [of_string "2"; of_string "1"]
    ∧ ∃ html, generate_job_listings Demo.ext l = Ok html.
Proof.
  destruct (main Demo.ext [Demo.job1; Demo.job2] Demo.profile
              (Demo.start [Demo.answer "3"; Demo.answer "4"]))
    as [[l|e] w'] eqn:Hmain; [|by vm_compute in Hmain].
  destruct (main_output Demo.ext _ _ _ _ _ Hmain) as (Hall & _ & Hhtml).
  exists l. split_and!; [done|done| |done].
  vm_compute in Hmain. by injection Hmain as <- _.
Defined.

Section CuratorMerge.
Context (E : External).

(** X18.  An accepted response is merged verbatim into the candidate's
    record: [summary] and [match] become the response's [Job_summary] and
    [Match_summary] whatever their JSON type, [suitability] becomes the
    [str] of its [Suitability], the CSV fields stay, and the record's
    position is appended to [final_jobs]. *)
Theorem accepted_response_enriches (profile Id : pystr) (st : curation)
    (w w' : world E) (i : nat) (d : job) (raw : pystr)
    (response score job_summary match_summary : pyval) (n : Z) :
  find_job (jobs_list st) Id = Some (i, d) →
  ollama_generate E (build_prompt profile d) w = (Ok raw, w') →
  json_loads E (extract_json raw) = Ok response →
  getitem response (of_string "Suitability") = Ok score →
  py_int E score = Ok n → 0 < n →
  getitem response (of_string "Job_summary") = Ok job_summary →
  getitem response (of_string "Match_summary") = Ok match_summary →
  ∃ st' d',
    curate E profile Id st w = (Ok st', w')
    ∧ final_jobs st' = final_jobs st ++ [i]
    ∧ jobs_list st' !! i = Some d'
    ∧ summary d' = Some job_summary
    ∧ match_ d' = Some match_summary
    ∧ suitability d' = Some (KStr (py_str E score))
    ∧ same_base d d'
    ∧ ∀ j, j ≠ i → jobs_list st' !! j = jobs_list st !! j.
Proof.
  intros Hfind Hgen Hload Hscore Hint Hpos Hjs Hms.
  destruct (find_job_lookup _ _ _ _ Hfind) as [Hi _].
  exists (curated E i score job_summary match_summary st).
  exists (set_suitability (KStr (py_str E score))
            (set_match match_summary (set_summary job_summary d))).
  split_and!; try done.
  - rewrite (curate_run E profile Id st w w' i d raw Hfind Hgen).
    do 2 f_equal.
    unfold curate_response, sbind, slift, smodify, sret.
    rewrite Hload, Hscore, Hint. apply Z.ltb_lt in Hpos. rewrite Hpos.
    by rewrite Hjs, Hms.
  - simpl. by rewrite !list_lookup_alter_eq, Hi.
  - intros j Hj. simpl. by rewrite !list_lookup_alter_ne.
Qed.
End CuratorMerge.

Lemma accepted_response_enriches_witness :
  let st := Curation [Demo.job1; Demo.job2] [] in
  let w := Demo.start [Demo.answer "true"] in
  let w' := (Demo.generate (build_prompt Demo.profile Demo.job2) w).2 in
  ∃ st' d',
    curate Demo.ext Demo.profile (of_string "2") st w = (Ok st', w')
    ∧ final_jobs st' = final_jobs st ++ [1%nat]
    ∧ jobs_list st' !! 1%nat = Some d'
    ∧ summary d' = Some (PStr (of_string "a"))
    ∧ match_ d' = Some (PStr (of_string "b"))
    ∧ suitability d' = Some (KStr (py_str Demo.ext (PBool true)))
    ∧ same_base Demo.job2 d'
    ∧ ∀ j, j ≠ 1%nat → jobs_list st' !! j = jobs_list st !! j.
Proof.
  apply (accepted_response_enriches Demo.ext Demo.profile (of_string "2")
           (Curation [Demo.job1; Demo.job2] [])
           (Demo.start [Demo.answer "true"]) _ 1%nat Demo.job2
           (Demo.answer "true") (Demo.parsed (PBool true)) (PBool true)
           (PStr (of_string "a")) (PStr (of_string "b")) 1);
    vm_compute; reflexivity.
Defined.
